(** * ACL management tool: the rule validator and its gate on the applier

    A shallow embedding of [acl_management.py]:
    [check_overlap], [validate_acl_rules], [build_acl_command],
    [backup_current_config], [dry_run_commands] and [configure_acls].

    Python dictionaries are finite maps from keys to values, the log written
    through [logging] is an explicit list of events, uncaught exceptions are
    an error outcome, and the [ipaddress] module of the standard library is
    an interface ([IPLibrary]) whose objects carry the integers the library
    computes with. *)

From Stdlib Require Import ZArith String Ascii List Bool Lia.
From stdpp Require Import base decidable countable gmap strings list pretty.

Local Open Scope string_scope.
Local Open Scope list_scope.
Local Open Scope Z_scope.

(** ** Values and dictionaries *)

(** The JSON values a rule or device field can hold. *)
Inductive value :=
  | VStr (s : string)
  | VInt (n : Z).

#[global] Instance value_eq_dec : EqDecision value.
Proof. solve_decision. Defined.

#[global] Instance value_countable : Countable value.
Proof.
  refine (inj_countable'
            (fun v => match v with VStr s => inl s | VInt n => inr n end)
            (fun x => match x with inl s => VStr s | inr n => VInt n end) _).
  intros [s | n]; reflexivity.
Defined.

(** Python's [==] on the values above: a string never equals an integer. *)
Definition value_eqb (a b : value) : bool := bool_decide (a = b).

(** [str(v)], as an f-string renders a field. *)
Definition str_of_value (v : value) : string :=
  match v with
  | VStr s => s
  | VInt n => pretty n
  end.

(** A rule and a device are dictionaries ([Dict]). *)
Abbreviation rule := (gmap string value).
Abbreviation device := (gmap string value).

(** [k in d] *)
Definition has_key (d : gmap string value) (k : string) : bool :=
  bool_decide (is_Some (d !! k)).

(** ** Outcomes, the log and the monad of the validator *)

Inductive exn :=
  | KeyError (k : string)
  | IndexError
  | TypeError
  | AttributeError
  | ValueError
  | NetmikoError.

#[global] Instance exn_eq_dec : EqDecision exn.
Proof. solve_decision. Defined.

Inductive res (A : Type) :=
  | Ret (a : A)
  | Raise (e : exn).
Arguments Ret {A} a.
Arguments Raise {A} e.

#[global] Instance res_eq_dec {A} `{EqDecision A} : EqDecision (res A).
Proof. solve_decision. Defined.

(** One constructor per [logging] call of the program.  The first five are
    the validator's findings. *)
Inductive event :=
  | MissingField (r : rule)                (* line 83 *)
  | PermissionDenied                       (* line 88 *)
  | DuplicateAcl (n : value)               (* line 93 *)
  | Conflict (permit deny : rule)          (* line 108 *)
  | Overlap (ri rj : rule)                 (* line 116 *)
  | IPAddressError                         (* line 71 *)
  | ValidationFailed                       (* line 147 *)
  | BackupDone (host : value)              (* line 134 *)
  | BackupFailed (host : value)            (* line 137 *)
  | ChangesApplied (host : value)          (* line 164 *)
  | DeviceOutput (out : string)            (* line 165 *)
  | ConfigureFailed (host : value).        (* line 169 *)

#[global] Instance event_eq_dec : EqDecision event.
Proof. solve_decision. Defined.

Definition is_finding (e : event) : bool :=
  match e with
  | MissingField _ | PermissionDenied | DuplicateAcl _
  | Conflict _ _ | Overlap _ _ => true
  | _ => false
  end.

Definition findings (log : list event) : list event :=
  List.filter is_finding log.

(** A computation over a state [S] returns or raises, and leaves a state
    either way. *)
Definition ST (S A : Type) : Type := S -> res A * S.

#[global] Instance ST_ret {S} : MRet (ST S) := fun A a s => (Ret a, s).

#[global] Instance ST_bind {S} : MBind (ST S) := fun A B f m s =>
  match m s with
  | (Ret a, s') => f a s'
  | (Raise e, s') => (Raise e, s')
  end.

Definition raise {S A} (e : exn) : ST S A := fun s => (Raise e, s).

(** The validator's state is the log alone. *)
Abbreviation M := (ST (list event)).

(** [logging.error(...)] and [logging.info(...)] *)
Definition logging (e : event) : M unit := fun log => (Ret tt, log ++ [e]).

(** [try: body except ValueError: handler] *)
Definition try_except_ValueError {A} (body handler : M A) : M A := fun log =>
  match body log with
  | (Raise ValueError, log') => handler log'
  | r => r
  end.

(** [d[k]] *)
Definition getitem {S} (d : gmap string value) (k : string) : ST S value :=
  match d !! k with
  | Some v => mret v
  | None => raise (KeyError k)
  end.

(** [for x in l: s = body(s, x)] *)
Fixpoint for_each {St A S} (body : S -> A -> ST St S) (l : list A) (s : S)
  : ST St S :=
  match l with
  | [] => mret s
  | x :: l' => s' ← body s x; for_each body l' s'
  end.

(** [c in s] for a one-character [c] *)
Fixpoint char_in (c : ascii) (s : string) : bool :=
  match s with
  | EmptyString => false
  | String a s' => if Ascii.eqb a c then true else char_in c s'
  end.

(** ** The [ipaddress] objects

    The integers and methods of [IPv4Address], [IPv6Address], [IPv4Network]
    and [IPv6Network] that [check_overlap] reaches: [_version], [_ip],
    [network_address], [netmask], [hostmask], [broadcast_address],
    [__contains__] and [overlaps]. *)

Module IP.

Inductive version := V4 | V6.

#[global] Instance version_eq_dec : EqDecision version.
Proof. solve_decision. Defined.

Definition max_prefixlen (v : version) : Z :=
  match v with V4 => 32 | V6 => 128 end.

(** [_ALL_ONES] *)
Definition ALL_ONES (v : version) : Z := 2 ^ max_prefixlen v - 1.

(** An address object: [_version] and [_ip]. *)
Record Address := { a_version : version; a_ip : Z }.

(** A network object: [_version], [int(network_address)], [_prefixlen]. *)
Record Network := { n_version : version; network_address : Z; prefixlen : Z }.

(** [_ip_int_from_prefix]: [_ALL_ONES ^ (_ALL_ONES >> prefixlen)] *)
Definition ip_int_from_prefix (v : version) (p : Z) : Z :=
  Z.lxor (ALL_ONES v) (Z.shiftr (ALL_ONES v) p).

Definition netmask (n : Network) : Z :=
  ip_int_from_prefix (n_version n) (prefixlen n).

(** [int(self.netmask) ^ self._ALL_ONES] *)
Definition hostmask (n : Network) : Z :=
  Z.lxor (netmask n) (ALL_ONES (n_version n)).

(** [int(self.network_address) | int(self.hostmask)] *)
Definition broadcast_address (n : Network) : Z :=
  Z.lor (network_address n) (hostmask n).

(** [_BaseNetwork.__contains__] at an address object *)
Definition contains (self : Network) (other : Address) : bool :=
  if negb (bool_decide (n_version self = a_version other)) then false
  else Z.land (a_ip other) (netmask self) =? network_address self.

Definition address_of (n : Network) (ip : Z) : Address :=
  {| a_version := n_version n; a_ip := ip |}.

(** [_BaseNetwork.overlaps] at a network object *)
Definition overlaps (self other : Network) : bool :=
  contains other (address_of self (network_address self))
  || (contains other (address_of self (broadcast_address self))
  || (contains self (address_of other (network_address other))
  || contains self (address_of other (broadcast_address other)))).

(** What the constructors guarantee of the objects they return. *)
Definition valid_address (a : Address) : Prop :=
  0 <= a_ip a <= ALL_ONES (a_version a).

Definition valid_network (n : Network) : Prop :=
  0 <= prefixlen n <= max_prefixlen (n_version n)
  /\ 0 <= network_address n <= ALL_ONES (n_version n)
  /\ Z.land (network_address n) (netmask n) = network_address n.

(** What [ip_address] or [ip_network] returned. *)
Inductive obj :=
  | Addr (a : Address)
  | Net (n : Network).

(** [net1.overlaps(net2)].  The address classes define neither [overlaps]
    nor [__contains__]: the attribute lookup fails on an address receiver,
    and [self.network_address in other], the first operand evaluated,
    fails on an address argument. *)
Definition call_overlaps (net1 net2 : obj) : M bool :=
  match net1 with
  | Addr _ => raise AttributeError
  | Net n1 =>
      match net2 with
      | Addr _ => raise TypeError
      | Net n2 => mret (overlaps n1 n2)
      end
  end.

End IP.

(** The two factory functions of the module, on text.  [None] stands for
    [ValueError] (which [AddressValueError] and [NetmaskValueError]
    subclass); [ip_network] is the call with [strict=False]. *)
Class IPLibrary := {
  ip_address : string -> option IP.Address;
  ip_network : string -> option IP.Network;
  ip_address_valid s a : ip_address s = Some a -> IP.valid_address a;
  ip_network_valid s n : ip_network s = Some n -> IP.valid_network n
}.

(** ** The validator *)

Section Validator.

Context `{IPLibrary}.

(** [ip_network(s, strict=False) if '/' in s else ip_address(s)]
    (lines 66 and 67).  ['/' in s] needs a string. *)
Definition parse_source (source : value) : M IP.obj :=
  match source with
  | VInt _ => raise TypeError
  | VStr s =>
      if char_in "/" s then
        match ip_network s with
        | Some n => mret (IP.Net n)
        | None => raise ValueError
        end
      else
        match ip_address s with
        | Some a => mret (IP.Addr a)
        | None => raise ValueError
        end
  end.

(** [check_overlap] (lines 63 to 72) *)
Definition check_overlap (source1 dest1 source2 dest2 : value) : M bool :=
  try_except_ValueError
    (net1 ← parse_source source1;
     net2 ← parse_source source2;
     IP.call_overlaps net1 net2)
    (logging IPAddressError;; mret false).

(** The locals of [validate_acl_rules] that the first loop updates. *)
Record scan := {
  valid : bool;
  seen_acls : gset value;
  permit_rules : list rule;
  deny_rules : list rule
}.

Definition invalidate (st : scan) : scan :=
  {| valid := false; seen_acls := seen_acls st;
     permit_rules := permit_rules st; deny_rules := deny_rules st |}.

Definition missing_required (r : rule) : bool :=
  negb (has_key r "acl_number") || negb (has_key r "action")
  || negb (has_key r "protocol").

Definition is_read_only (current_role : option string) : bool :=
  bool_decide (current_role = Some "read-only").

(** The body of the first loop (lines 82 to 101). *)
Definition scan_rule (current_role : option string) (st : scan) (r : rule)
  : M scan :=
  if missing_required r then
    logging (MissingField r);; mret (invalidate st)
  else
    deny ← (if is_read_only current_role
            then (a ← getitem r "action"; mret (value_eqb a (VStr "deny")))
            else mret false);
    if deny : bool then
      logging PermissionDenied;; mret (invalidate st)
    else
      n ← getitem r "acl_number";
      st ← (if bool_decide (n ∈ seen_acls st)
            then logging (DuplicateAcl n);; mret (invalidate st)
            else mret {| valid := valid st;
                         seen_acls := {[ n ]} ∪ seen_acls st;
                         permit_rules := permit_rules st;
                         deny_rules := deny_rules st |});
      a ← getitem r "action";
      if value_eqb a (VStr "permit") then
        mret {| valid := valid st; seen_acls := seen_acls st;
                permit_rules := permit_rules st ++ [r];
                deny_rules := deny_rules st |}
      else
        a ← getitem r "action";
        if value_eqb a (VStr "deny") then
          mret {| valid := valid st; seen_acls := seen_acls st;
                  permit_rules := permit_rules st;
                  deny_rules := deny_rules st ++ [r] |}
        else mret st.

(** The condition of the two pair loops (lines 106, 107 and 114, 115):
    [a['protocol'] == b['protocol'] and check_overlap(a['source'],
    a['destination'], b['source'], b['destination'])], the subscripts
    evaluated left to right and the call only when the protocols agree. *)
Definition pair_cond (a b : rule) : M bool :=
  pa ← getitem a "protocol";
  pb ← getitem b "protocol";
  if value_eqb pa pb then
    s1 ← getitem a "source";
    d1 ← getitem a "destination";
    s2 ← getitem b "source";
    d2 ← getitem b "destination";
    check_overlap s1 d1 s2 d2
  else mret false.

(** The [if] of the two pair loops (lines 106 to 109 and 114 to 117);
    [mk] builds the report of the loop. *)
Definition pair_check (mk : rule -> rule -> event) (a b : rule)
    (valid : bool) : M bool :=
  c ← pair_cond a b;
  if c : bool then logging (mk a b);; mret false else mret valid.

(** Lines 104 to 109. *)
Definition conflict_scan (permits denies : list rule) (valid : bool)
  : M bool :=
  for_each (fun valid permit =>
    for_each (fun valid deny => pair_check Conflict permit deny valid)
             denies valid)
    permits valid.

(** [rules[i]] *)
Definition index (rules : list rule) (i : nat) : M rule :=
  match rules !! i with
  | Some r => mret r
  | None => raise IndexError
  end.

(** [range(a, b)] *)
Definition range (a b : nat) : list nat := seq a (b - a).

(** Lines 112 to 117.  Each subscript [rules[i]] and [rules[j]] of the
    condition is an index lookup followed by a key lookup. *)
Definition overlap_scan (rules : list rule) (valid : bool) : M bool :=
  for_each (fun valid i =>
    for_each (fun valid j =>
        ri ← index rules i;
        rj ← index rules j;
        pair_check Overlap ri rj valid)
      (range (i + 1) (length rules)) valid)
    (range 0 (length rules)) valid.

Definition scan0 : scan :=
  {| valid := true; seen_acls := ∅; permit_rules := []; deny_rules := [] |}.

(** [validate_acl_rules] (lines 74 to 119); [current_role] is the module's
    global. *)
Definition validate_acl_rules (current_role : option string)
    (rules : list rule) : M bool :=
  st ← for_each (scan_rule current_role) rules scan0;
  valid ← conflict_scan (permit_rules st) (deny_rules st) (valid st);
  valid ← overlap_scan rules valid;
  mret valid.

End Validator.

(** ** The IPv4 text syntax of [ipaddress]

    [IPv4Address(str)] and [IPv4Network(str, strict=False)] as the module
    parses them: four decimal octets, and after an optional ['/'] a prefix
    length or a dotted net mask or host mask.  This instance reads IPv4 text
    only; the statements below that hold of every [IPLibrary] do not depend
    on it. *)

Module IPv4Text.

(** [s.split(c)] *)
Fixpoint split (c : ascii) (s : string) : list string :=
  match s with
  | EmptyString => [EmptyString]
  | String a s' =>
      if Ascii.eqb a c then EmptyString :: split c s'
      else match split c s' with
           | w :: ws => String a w :: ws
           | [] => [String a EmptyString]
           end
  end.

Definition digit (a : ascii) : option Z :=
  let n := Z.of_N (N_of_ascii a) in
  if (48 <=? n) && (n <=? 57) then Some (n - 48) else None.

(** [int(s, 10)] on a string of ASCII digits; [None] when a character is
    not one ([s.isascii() and s.isdigit()] fails) *)
Fixpoint int_of_digits (acc : Z) (s : string) : option Z :=
  match s with
  | EmptyString => Some acc
  | String a s' => d ← digit a; int_of_digits (10 * acc + d) s'
  end.

(** [_parse_octet] *)
Definition parse_octet (octet_str : string) : option Z :=
  match octet_str with
  | EmptyString => None
  | String a0 _ =>
      octet_int ← int_of_digits 0 octet_str;
      if (3 <? Z.of_nat (String.length octet_str))%Z then None
      else if negb (String.eqb octet_str "0") && Ascii.eqb a0 "0" then None
      else if 255 <? octet_int then None
      else Some octet_int
  end.

(** [_ip_int_from_string]: [int.from_bytes(map(_parse_octet, octets), 'big')] *)
Definition ip_int_from_string (ip_str : string) : option Z :=
  match ip_str with
  | EmptyString => None
  | _ =>
      match split "." ip_str with
      | [s1; s2; s3; s4] =>
          o1 ← parse_octet s1; o2 ← parse_octet s2;
          o3 ← parse_octet s3; o4 ← parse_octet s4;
          Some (((o1 * 256 + o2) * 256 + o3) * 256 + o4)
      | _ => None
      end
  end.

(** [IPv4Address(str)] *)
Definition IPv4Address (addr_str : string) : option IP.Address :=
  if char_in "/" addr_str then None
  else ip ← ip_int_from_string addr_str;
       Some {| IP.a_version := IP.V4; IP.a_ip := ip |}.

(** [_prefix_from_prefix_string] *)
Definition prefix_from_prefix_string (prefixlen_str : string) : option Z :=
  match prefixlen_str with
  | EmptyString => None
  | _ =>
      p ← int_of_digits 0 prefixlen_str;
      if (0 <=? p) && (p <=? IP.max_prefixlen IP.V4) then Some p else None
  end.

(** [int.bit_length] on a natural number *)
Definition bit_length (x : Z) : Z := if x =? 0 then 0 else Z.log2 x + 1.

(** [_count_righthand_zero_bits] *)
Definition count_righthand_zero_bits (number bits : Z) : Z :=
  if number =? 0 then bits
  else Z.min bits (bit_length (Z.land (Z.lnot number) (number - 1))).

(** [_prefix_from_ip_int] *)
Definition prefix_from_ip_int (ip_int : Z) : option Z :=
  let trailing_zeroes :=
    count_righthand_zero_bits ip_int (IP.max_prefixlen IP.V4) in
  let prefixlen := IP.max_prefixlen IP.V4 - trailing_zeroes in
  let leading_ones := Z.shiftr ip_int trailing_zeroes in
  let all_ones := Z.shiftl 1 prefixlen - 1 in
  if leading_ones =? all_ones then Some prefixlen else None.

(** [_prefix_from_ip_string]: a net mask, else a host mask *)
Definition prefix_from_ip_string (ip_str : string) : option Z :=
  ip_int ← ip_int_from_string ip_str;
  match prefix_from_ip_int ip_int with
  | Some p => Some p
  | None => prefix_from_ip_int (Z.lxor ip_int (IP.ALL_ONES IP.V4))
  end.

(** [_make_netmask] at a string *)
Definition make_netmask (arg : string) : option Z :=
  match prefix_from_prefix_string arg with
  | Some p => Some p
  | None => prefix_from_ip_string arg
  end.

(** [IPv4Network(str, strict=False)] *)
Definition IPv4Network (address : string) : option IP.Network :=
  '(addr, mask) ← match split "/" address with
                  | [a] => Some (a, None)
                  | [a; m] => Some (a, Some m)
                  | _ => None
                  end;
  packed ← ip_int_from_string addr;
  p ← match mask with
      | None => Some (IP.max_prefixlen IP.V4)
      | Some m => make_netmask m
      end;
  Some {| IP.n_version := IP.V4;
          IP.network_address := Z.land packed (IP.ip_int_from_prefix IP.V4 p);
          IP.prefixlen := p |}.

End IPv4Text.

(** ** The applier *)

(** What the program does outside its own memory: the [netmiko] session,
    the backup file and standard output. *)
Inductive io_call :=
  | ConnectHandler (d : device)
  | Enable
  | SendCommand (cmd : string)
  | SendConfigSet (cmds : list string)
  | Disconnect
  | WriteFile (name content : string)
  | Print (line : string).

(** The environment answers a call, given the calls made so far, with the
    text it returns, or [None] when it raises. *)
Class Environment := { respond : list io_call -> io_call -> option string }.

Record world := { w_log : list event; w_io : list io_call }.

Abbreviation W := (ST world).

Section Applier.

Context `{IPLibrary} `{Environment}.

Definition io (c : io_call) : W string := fun w =>
  let w' := {| w_log := w_log w; w_io := w_io w ++ [c] |} in
  match respond (w_io w) c with
  | Some out => (Ret out, w')
  | None => (Raise NetmikoError, w')
  end.

(** Runs a computation of the validator's monad on the log of the world. *)
Definition on_log {A} (m : M A) : W A := fun w =>
  let '(r, log) := m (w_log w) in (r, {| w_log := log; w_io := w_io w |}).

(** [try: body except Exception: handler] *)
Definition try_except_Exception {A} (body handler : W A) : W A := fun w =>
  match body w with
  | (Raise _, w') => handler w'
  | r => r
  end.

(** [build_acl_command] (lines 52 to 61) *)
Definition build_acl_command {S} (r : rule) : ST S string :=
  n ← getitem r "acl_number";
  a ← getitem r "action";
  p ← getitem r "protocol";
  let command :=
    ("access-list " ++ str_of_value n ++ " " ++ str_of_value a ++ " "
       ++ str_of_value p ++ " ")%string in
  if has_key r "port" then
    s ← getitem r "source";
    d ← getitem r "destination";
    q ← getitem r "port";
    mret (command ++ "host " ++ str_of_value s ++ " host "
            ++ str_of_value d ++ " eq " ++ str_of_value q)%string
  else
    s ← getitem r "source";
    d ← getitem r "destination";
    mret (command ++ str_of_value s ++ " " ++ str_of_value d)%string.

(** [[build_acl_command(rule) for rule in rules]] *)
Fixpoint build_commands {S} (rules : list rule) : ST S (list string) :=
  match rules with
  | [] => mret []
  | r :: rules' =>
      c ← build_acl_command r;
      cs ← build_commands rules';
      mret (c :: cs)
  end.

(** [backup_current_config] (lines 121 to 137) *)
Definition backup_current_config (d : device) : W unit :=
  try_except_Exception
    (io (ConnectHandler d);;
     io Enable;;
     current_config ←
       io (SendCommand "show running-config | include access-list");
     host ← getitem d "host";
     let backup_file_name :=
       ("backup_" ++ str_of_value host ++ "_acl.txt")%string in
     io (WriteFile backup_file_name current_config);;
     host ← getitem d "host";
     on_log (logging (BackupDone host));;
     io Disconnect;;
     mret tt)
    (host ← getitem d "host";
     on_log (logging (BackupFailed host))).

(** [dry_run_commands] (lines 139 to 142) *)
Definition dry_run_commands (commands : list string) : W unit :=
  for_each (fun _ command =>
              io (Print ("Dry Run: " ++ command)%string);; mret tt)
           commands tt.

(** [configure_acls] (lines 144 to 169) *)
Definition configure_acls (current_role : option string) (d : device)
    (rules : list rule) (dry_run : bool) : W unit :=
  ok ← on_log (validate_acl_rules current_role rules);
  if negb ok then
    on_log (logging ValidationFailed)
  else if dry_run then
    commands ← build_commands rules;
    dry_run_commands commands
  else
    backup_current_config d;;
    try_except_Exception
      (io (ConnectHandler d);;
       io Enable;;
       commands ← build_commands rules;
       output ← io (SendConfigSet commands);
       host ← getitem d "host";
       on_log (logging (ChangesApplied host));;
       on_log (logging (DeviceOutput output));;
       io Disconnect;;
       mret tt)
      (host ← getitem d "host";
       on_log (logging (ConfigureFailed host))).

End Applier.

(** * Vocabulary of the statements *)

(** ** Runs from the empty log

    A computation of the validator never reads the log: its outcome [out]
    and the events it appends [evs] are those of a run from the empty log
    ([uniform], proved of every computation below). *)

Definition out {A} (m : M A) : res A := fst (m []).
Definition evs {A} (m : M A) : list event := snd (m []).

Definition uniform {A} (m : M A) : Prop :=
  forall log, m log = (out m, log ++ evs m).

(** ** The first loop, rule by rule *)

(** [rule['action'] == 'deny'], on a rule that may lack the field. *)
Definition is_deny (r : rule) : bool :=
  bool_decide (r !! "action" = Some (VStr "deny")).

(** [rule['action'] == 'permit'], on a rule that may lack the field. *)
Definition is_permit (r : rule) : bool :=
  bool_decide (r !! "action" = Some (VStr "permit")).

(** The rule is refused by the permission check of line 87. *)
Definition denied (current_role : option string) (r : rule) : bool :=
  is_read_only current_role && is_deny r.

(** The rule passes lines 82 to 90 and reaches the duplicate check. *)
Definition admitted (current_role : option string) (r : rule) : bool :=
  negb (missing_required r) && negb (denied current_role r).

(** What one iteration logs. *)
Definition scan_events (current_role : option string) (st : scan) (r : rule)
  : list event :=
  if missing_required r then [MissingField r]
  else if denied current_role r then [PermissionDenied]
  else match r !! "acl_number" with
       | Some n => if bool_decide (n ∈ seen_acls st)
                   then [DuplicateAcl n] else []
       | None => []
       end.

(** The locals after one iteration. *)
Definition scan_next (current_role : option string) (st : scan) (r : rule)
  : scan :=
  if missing_required r || denied current_role r then invalidate st
  else match r !! "acl_number" with
       | Some n =>
           {| valid := valid st && negb (bool_decide (n ∈ seen_acls st));
              seen_acls := {[ n ]} ∪ seen_acls st;
              permit_rules :=
                permit_rules st ++ (if is_permit r then [r] else []);
              deny_rules :=
                deny_rules st ++ (if is_deny r then [r] else []) |}
       | None => st
       end.

(** What the first loop logs from the locals [st] on. *)
Fixpoint scan_log (current_role : option string) (st : scan)
    (rules : list rule) : list event :=
  match rules with
  | [] => []
  | r :: rules' =>
      scan_events current_role st r
        ++ scan_log current_role (scan_next current_role st r) rules'
  end.

(** The locals after the first loop. *)
Definition scanned (current_role : option string) (rules : list rule)
  : scan :=
  foldl (scan_next current_role) scan0 rules.

(** ** The pairs the two scans range over *)

(** Every permit rule with every deny rule, permit-major. *)
Definition product {A B} (l1 : list A) (l2 : list B) : list (A * B) :=
  flat_map (fun a => map (pair a) l2) l1.

(** Every pair of positions [i < j], in lexicographic order. *)
Fixpoint all_pairs {A} (l : list A) : list (A * A) :=
  match l with
  | [] => []
  | x :: l' => map (pair x) l' ++ all_pairs l'
  end.

(** The permit and deny pairs of the second loop. *)
Definition conflict_pairs (current_role : option string)
    (rules : list rule) : list (rule * rule) :=
  product (permit_rules (scanned current_role rules))
          (deny_rules (scanned current_role rules)).

Section PairLoops.

Context `{IPLibrary}.

(** One loop over a list of pairs, the shape both scans reduce to. *)
Definition flag_loop (mk : rule -> rule -> event)
    (ps : list (rule * rule)) (valid : bool) : M bool :=
  for_each (fun valid ab => pair_check mk ab.1 ab.2 valid) ps valid.

(** The second loop, entered with the locals the first loop leaves. *)
Definition conflict_loop (current_role : option string)
    (rules : list rule) : M bool :=
  flag_loop Conflict (conflict_pairs current_role rules)
            (valid (scanned current_role rules)).

(** The pair test evaluates to [True]. *)
Definition flagged (ab : rule * rule) : bool :=
  bool_decide (out (pair_cond ab.1 ab.2) = Ret true).

(** The pair test evaluates, to either truth value. *)
Definition examined (ab : rule * rule) : Prop :=
  exists c, out (pair_cond ab.1 ab.2) = Ret c.

End PairLoops.

(** ** Counting findings *)

(** The number of elements of [l] that satisfy [P]. *)
Definition count {A} (P : A -> bool) (l : list A) : nat :=
  length (List.filter P l).

(** The [permission-denied] findings of a log. *)
Definition denials (log : list event) : nat :=
  count (fun e => bool_decide (e = PermissionDenied)) log.



(** ** Shapes of rules and rule sets *)

(** A rule whose pair tests cannot raise: [protocol] and [destination] are
    there and [source] is text with a prefix-length marker. *)
Definition range_rule (r : rule) : bool :=
  has_key r "protocol" && has_key r "destination"
  && match r !! "source" with
     | Some (VStr s) => char_in "/" s
     | _ => false
     end.

(** The five fields of a rule are present. *)
Definition complete_rule (r : rule) : bool :=
  has_key r "acl_number" && has_key r "action" && has_key r "protocol"
  && has_key r "source" && has_key r "destination".

Section Disjoint.

Context `{IPLibrary}.

(** Two rules are disjoint: their protocols differ, or [check_overlap]
    returns [False] on them. *)
Definition overlap_free (a b : rule) : bool :=
  negb (bool_decide (a !! "protocol" = b !! "protocol"))
  || match a !! "source", a !! "destination",
           b !! "source", b !! "destination" with
     | Some s1, Some d1, Some s2, Some d2 =>
         bool_decide (out (check_overlap s1 d1 s2 d2) = Ret false)
     | _, _, _, _ => false
     end.

(** Every two distinct rules of the set are disjoint. *)
Definition pairwise_disjoint (rules : list rule) : bool :=
  forallb (fun a =>
             forallb (fun b => bool_decide (a = b) || overlap_free a b) rules)
          rules.

End Disjoint.

(** ** Source text *)

Section SourceText.

Context `{IPLibrary}.

(** The text parses: as a range when it carries a prefix-length marker, as
    a single address otherwise. *)
Definition parses (s : string) : bool :=
  if char_in "/" s then bool_decide (is_Some (ip_network s))
  else bool_decide (is_Some (ip_address s)).

End SourceText.

(** The findings of the first loop. *)
Definition is_rule_finding (e : event) : bool :=
  match e with
  | MissingField _ | PermissionDenied | DuplicateAcl _ => true
  | _ => false
  end.

Section Meeting.

Context `{IPLibrary}.

(** The two rules have the same protocol, and their sources are texts that
    parse as ranges with an address in common. *)
Definition ranges_meet (a b : rule) : Prop :=
  a !! "protocol" = b !! "protocol"
  /\ exists sa sb na nb,
       a !! "source" = Some (VStr sa) /\ b !! "source" = Some (VStr sb)
       /\ ip_network sa = Some na /\ ip_network sb = Some nb
       /\ exists x, IP.valid_address x /\ IP.contains na x = true
                    /\ IP.contains nb x = true.

End Meeting.

(** The rule with its destination replaced by [g r]. *)
Definition with_destination (g : rule -> value) (r : rule) : rule :=
  <["destination" := g r]> r.

(** ** Sample rule sets *)

Module Samples.

Definition dict (fields : list (string * value)) : gmap string value :=
  list_to_map fields.

Definition mk_rule (acl : Z) (action protocol source destination : string)
  : rule :=
  dict [("acl_number", VInt acl); ("action", VStr action);
        ("protocol", VStr protocol); ("source", VStr source);
        ("destination", VStr destination)].

(** The two rules of the specification's first example. *)
Definition permit_range : rule :=
  mk_rule 1 "permit" "tcp" "10.0.0.0/24" "8.8.8.8".
Definition deny_host_dup : rule :=
  mk_rule 1 "deny" "tcp" "10.0.0.5" "9.9.9.9".

(** Two permit rules on distinct single addresses. *)
Definition permit_host1 : rule :=
  mk_rule 1 "permit" "tcp" "10.0.0.1" "8.8.8.8".
Definition permit_host2 : rule :=
  mk_rule 2 "permit" "tcp" "10.0.0.2" "8.8.8.8".

(** Rules whose sources are written as ranges. *)
Definition permit_a : rule :=
  mk_rule 1 "permit" "tcp" "10.0.0.1/32" "8.8.8.8".
Definition permit_b : rule :=
  mk_rule 2 "permit" "tcp" "10.0.0.2/32" "8.8.8.8".
Definition deny_c : rule :=
  mk_rule 3 "deny" "tcp" "10.0.1.0/24" "9.9.9.9".
Definition deny_in_a : rule :=
  mk_rule 4 "deny" "tcp" "10.0.0.0/24" "9.9.9.9".


(** A rule without [protocol]. *)
Definition no_protocol : rule :=
  dict [("acl_number", VInt 7); ("action", VStr "permit");
        ("source", VStr "10.0.0.0/24"); ("destination", VStr "8.8.8.8")].

Definition router : device :=
  dict [("host", VStr "192.0.2.1"); ("device_type", VStr "cisco_ios")].

(** An environment in which every call succeeds with empty output. *)
Definition quiet : Environment := {| respond := fun _ _ => Some "" |}.

End Samples.

(** * Properties *)

(** ** Bits of the masks *)

Module IPFacts.
Import IP.

Lemma max_prefixlen_pos v : 0 < max_prefixlen v.
Proof. destruct v; simpl; lia. Qed.

Lemma ALL_ONES_ones v : ALL_ONES v = Z.ones (max_prefixlen v).
Proof. unfold ALL_ONES. rewrite Z.ones_equiv. lia. Qed.

Lemma ALL_ONES_nonneg v : 0 <= ALL_ONES v.
Proof. destruct v; vm_compute; discriminate. Qed.

Lemma testbit_ALL_ONES v i :
  0 <= i -> Z.testbit (ALL_ONES v) i = (i <? max_prefixlen v).
Proof.
  intros Hi. rewrite ALL_ONES_ones.
  apply Z.testbit_ones_nonneg; [pose proof (max_prefixlen_pos v); lia | done].
Qed.

(** Bit [i] of the net mask of prefix length [p] is set exactly for the
    [p] high positions of the address width. *)
Lemma testbit_ip_int_from_prefix v p i :
  0 <= p <= max_prefixlen v -> 0 <= i ->
  Z.testbit (ip_int_from_prefix v p) i
  = (max_prefixlen v - p <=? i) && (i <? max_prefixlen v).
Proof.
  intros Hp Hi. unfold ip_int_from_prefix.
  rewrite Z.lxor_spec, Z.shiftr_spec by lia.
  rewrite !testbit_ALL_ONES by lia.
  destruct (Z.ltb_spec i (max_prefixlen v)),
           (Z.ltb_spec (i + p) (max_prefixlen v)),
           (Z.leb_spec (max_prefixlen v - p) i); simpl; try reflexivity; lia.
Qed.

(** A number whose bits all lie below the address width is an address. *)
Lemma in_range_of_bits v x :
  0 <= x ->
  (forall i, max_prefixlen v <= i -> Z.testbit x i = false) ->
  0 <= x <= ALL_ONES v.
Proof.
  intros Hx Hbits. split; [done |].
  assert (Hland : Z.land x (Z.ones (max_prefixlen v)) = x).
  { apply Z.bits_inj'. intros i Hi.
    rewrite Z.land_spec, Z.testbit_ones_nonneg
      by (pose proof (max_prefixlen_pos v); lia).
    destruct (Z.ltb_spec i (max_prefixlen v)).
    - apply andb_true_r.
    - rewrite Hbits by lia. reflexivity. }
  rewrite Z.land_ones in Hland by (pose proof (max_prefixlen_pos v); lia).
  pose proof (Z.mod_pos_bound x (2 ^ max_prefixlen v)) as Hb.
  unfold ALL_ONES.
  assert (0 < 2 ^ max_prefixlen v)
    by (apply Z.pow_pos_nonneg; pose proof (max_prefixlen_pos v); lia).
  lia.
Qed.

Lemma bits_of_in_range v x i :
  0 <= x <= ALL_ONES v -> max_prefixlen v <= i -> Z.testbit x i = false.
Proof.
  intros [Hx Hle] Hi.
  destruct (Z.eq_dec x 0) as [-> | Hne]; [apply Z.bits_0 |].
  apply Z.bits_above_log2; [done |].
  pose proof (max_prefixlen_pos v).
  apply Z.log2_lt_pow2; [lia |].
  unfold ALL_ONES in Hle.
  assert (2 ^ max_prefixlen v <= 2 ^ i)
    by (apply Z.pow_le_mono_r; lia).
  lia.
Qed.

Lemma ip_int_from_prefix_range v p :
  0 <= p <= max_prefixlen v -> 0 <= ip_int_from_prefix v p <= ALL_ONES v.
Proof.
  intros Hp. apply in_range_of_bits.
  - unfold ip_int_from_prefix. apply Z.lxor_nonneg.
    pose proof (ALL_ONES_nonneg v).
    split; intros _; [apply Z.shiftr_nonneg |]; done.
  - intros i Hi. rewrite testbit_ip_int_from_prefix by lia.
    destruct (Z.ltb_spec i (max_prefixlen v)); [lia |].
    apply andb_false_r.
Qed.

(** Masking with [strict=False] yields a valid network. *)
Lemma masked_network_valid v packed p :
  0 <= packed <= ALL_ONES v -> 0 <= p <= max_prefixlen v ->
  valid_network {| n_version := v;
                   network_address := Z.land packed (ip_int_from_prefix v p);
                   prefixlen := p |}.
Proof.
  intros Hpk Hp. unfold valid_network, netmask. simpl.
  split; [done |]. split.
  - apply in_range_of_bits.
    + apply Z.land_nonneg. left. lia.
    + intros i Hi. rewrite Z.land_spec, (bits_of_in_range v packed) by lia.
      reflexivity.
  - rewrite <- Z.land_assoc, Z.land_diag. reflexivity.
Qed.

End IPFacts.

(** ** The IPv4 text instance meets the interface *)

Module IPv4Facts.
Import IP IPv4Text.

Lemma digit_range a d : digit a = Some d -> 0 <= d <= 9.
Proof.
  unfold digit. intros Hd.
  destruct (Z.leb_spec 48 (Z.of_N (N_of_ascii a)));
    destruct (Z.leb_spec (Z.of_N (N_of_ascii a)) 57);
    simpl in Hd; inversion Hd; lia.
Qed.

Lemma int_of_digits_nonneg s : forall acc r,
  0 <= acc -> int_of_digits acc s = Some r -> 0 <= r.
Proof.
  induction s as [| a s IH]; intros acc r Hacc Hr; simpl in Hr.
  - inversion Hr; subst; done.
  - destruct (digit a) as [d |] eqn:Hd; simpl in Hr; [| discriminate].
    apply digit_range in Hd. apply (IH (10 * acc + d)); [lia | done].
Qed.

Lemma parse_octet_range s o : parse_octet s = Some o -> 0 <= o <= 255.
Proof.
  unfold parse_octet. destruct s as [| a0 s']; [discriminate |].
  destruct (int_of_digits 0 (String a0 s')) as [n |] eqn:Hn;
    simpl; [| discriminate].
  apply int_of_digits_nonneg in Hn; [| lia].
  destruct (3 <? _); [intros Ho; discriminate Ho |].
  destruct (negb _ && _); [intros Ho; discriminate Ho |].
  destruct (Z.ltb_spec 255 n); [intros Ho; discriminate Ho |].
  intros Ho; inversion Ho; subst. lia.
Qed.

Lemma ip_int_from_string_range s ip :
  ip_int_from_string s = Some ip -> 0 <= ip <= ALL_ONES V4.
Proof.
  unfold ip_int_from_string. destruct s as [| a s']; [discriminate |].
  destruct (split "." (String a s')) as [| s1 [| s2 [| s3 [| s4 [| ? ?]]]]];
    try discriminate.
  destruct (parse_octet s1) as [o1 |] eqn:H1; simpl; [| discriminate].
  destruct (parse_octet s2) as [o2 |] eqn:H2; simpl; [| discriminate].
  destruct (parse_octet s3) as [o3 |] eqn:H3; simpl; [| discriminate].
  destruct (parse_octet s4) as [o4 |] eqn:H4; simpl; [| discriminate].
  apply parse_octet_range in H1, H2, H3, H4.
  intros Hip; inversion Hip; subst.
  change (ALL_ONES V4) with 4294967295. lia.
Qed.

Lemma bit_length_nonneg x : 0 <= bit_length x.
Proof.
  unfold bit_length. destruct (x =? 0); [lia |].
  pose proof (Z.log2_nonneg x). lia.
Qed.

Lemma prefix_from_ip_int_range ip p :
  prefix_from_ip_int ip = Some p -> 0 <= p <= max_prefixlen V4.
Proof.
  unfold prefix_from_ip_int, count_righthand_zero_bits.
  pose proof (bit_length_nonneg (Z.land (Z.lnot ip) (ip - 1))).
  destruct (ip =? 0); case_match; intros Hp; inversion Hp; subst;
    simpl; lia.
Qed.

Lemma prefix_from_prefix_string_range m p :
  prefix_from_prefix_string m = Some p -> 0 <= p <= max_prefixlen V4.
Proof.
  unfold prefix_from_prefix_string. destruct m as [| a m']; [discriminate |].
  destruct (int_of_digits 0 (String a m')) as [q |]; simpl; [| discriminate].
  destruct (Z.leb_spec 0 q); destruct (Z.leb_spec q 32); simpl;
    intros Hp; inversion Hp; subst; lia.
Qed.

Lemma prefix_from_ip_string_range m p :
  prefix_from_ip_string m = Some p -> 0 <= p <= max_prefixlen V4.
Proof.
  unfold prefix_from_ip_string.
  destruct (ip_int_from_string m) as [ip |]; simpl; [| discriminate].
  destruct (prefix_from_ip_int ip) as [q |] eqn:Hq.
  - intros Hp; inversion Hp; subst. eauto using prefix_from_ip_int_range.
  - apply prefix_from_ip_int_range.
Qed.

Lemma make_netmask_range m p :
  make_netmask m = Some p -> 0 <= p <= max_prefixlen V4.
Proof.
  unfold make_netmask.
  destruct (prefix_from_prefix_string m) as [q |] eqn:Hq.
  - intros Hp; inversion Hp; subst.
    eauto using prefix_from_prefix_string_range.
  - apply prefix_from_ip_string_range.
Qed.

Lemma IPv4Address_valid s a : IPv4Address s = Some a -> valid_address a.
Proof.
  unfold IPv4Address. destruct (char_in "/" s); [discriminate |].
  destruct (ip_int_from_string s) as [ip |] eqn:Hip; simpl; [| discriminate].
  intros Ha; inversion Ha; subst. unfold valid_address; simpl.
  eauto using ip_int_from_string_range.
Qed.

Lemma IPv4Network_valid s n : IPv4Network s = Some n -> valid_network n.
Proof.
  unfold IPv4Network. intros Hn.
  apply bind_Some in Hn as ([addr mask] & _ & Hn).
  apply bind_Some in Hn as (packed & Hpk & Hn).
  apply bind_Some in Hn as (p & Hp & Hn).
  inversion Hn; subst.
  apply IPFacts.masked_network_valid.
  - eauto using ip_int_from_string_range.
  - destruct mask as [m |].
    + eauto using make_netmask_range.
    + inversion Hp; subst; simpl; lia.
Qed.

End IPv4Facts.

#[global] Instance ipv4_text : IPLibrary := {|
  ip_address := IPv4Text.IPv4Address;
  ip_network := IPv4Text.IPv4Network;
  ip_address_valid := IPv4Facts.IPv4Address_valid;
  ip_network_valid := IPv4Facts.IPv4Network_valid
|}.

(** ** The log is only appended to *)

Create HintDb uniform.

Section Uniform.

Context {A B : Type}.

Lemma uniform_ret (a : A) : uniform (mret a).
Proof. intros log. unfold out, evs; simpl. by rewrite app_nil_r. Qed.

Lemma uniform_raise (e : exn) : uniform (raise e : M A).
Proof. intros log. unfold out, evs, raise; simpl. by rewrite app_nil_r. Qed.

Lemma run_bind (m : M A) (f : A -> M B) log :
  uniform m ->
  (m ≫= f) log = match out m with
                 | Ret a => f a (log ++ evs m)
                 | Raise e => (Raise e, log ++ evs m)
                 end.
Proof.
  intros Hm. unfold mbind, ST_bind. rewrite (Hm log).
  destruct (out m); reflexivity.
Qed.

Lemma out_bind (m : M A) (f : A -> M B) :
  uniform m -> (forall a, uniform (f a)) ->
  out (m ≫= f) = match out m with
                 | Ret a => out (f a)
                 | Raise e => Raise e
                 end.
Proof.
  intros Hm Hf. unfold out at 1. rewrite run_bind by done.
  destruct (out m) as [a | e]; [| done]. by rewrite (Hf a).
Qed.

Lemma evs_bind (m : M A) (f : A -> M B) :
  uniform m -> (forall a, uniform (f a)) ->
  evs (m ≫= f) = evs m ++ match out m with
                          | Ret a => evs (f a)
                          | Raise e => []
                          end.
Proof.
  intros Hm Hf. unfold evs at 1. rewrite run_bind by done.
  destruct (out m) as [a | e]; simpl; [| by rewrite app_nil_r].
  by rewrite (Hf a).
Qed.

Lemma uniform_bind (m : M A) (f : A -> M B) :
  uniform m -> (forall a, uniform (f a)) -> uniform (m ≫= f).
Proof.
  intros Hm Hf log. rewrite run_bind, out_bind, evs_bind by done.
  destruct (out m) as [a | e].
  - by rewrite (Hf a), app_assoc.
  - by rewrite app_nil_r.
Qed.

Lemma uniform_try (body handler : M A) :
  uniform body -> uniform handler ->
  uniform (try_except_ValueError body handler).
Proof.
  intros Hb Hh log. unfold out, evs, try_except_ValueError.
  rewrite (Hb log), (Hb []). simpl.
  destruct (out body) as [a | []]; simpl; try reflexivity.
  rewrite (Hh (log ++ evs body)), (Hh (evs body)). simpl.
  by rewrite app_assoc.
Qed.

End Uniform.

Lemma uniform_for_each {A B} (body : B -> A -> M B) (l : list A) :
  (forall s x, uniform (body s x)) -> forall s, uniform (for_each body l s).
Proof.
  intros Hbody. induction l as [| x l IH]; intros s; simpl.
  - apply uniform_ret.
  - apply uniform_bind; [apply Hbody | apply IH].
Qed.

Lemma uniform_logging (e : event) : uniform (logging e).
Proof. intros log. reflexivity. Qed.

Lemma uniform_getitem (d : gmap string value) k : uniform (getitem d k).
Proof.
  unfold getitem. destruct (d !! k); [apply uniform_ret | apply uniform_raise].
Qed.

#[global] Hint Resolve uniform_ret uniform_raise uniform_bind uniform_try
  uniform_for_each uniform_logging uniform_getitem : uniform.

Ltac uniform :=
  repeat match goal with
    | |- forall _, _ => intro
    | |- uniform (mbind _ _) => apply uniform_bind
    | |- uniform (mret _) => apply uniform_ret
    | |- uniform (raise _) => apply uniform_raise
    | |- uniform (logging _) => apply uniform_logging
    | |- uniform (getitem _ _) => apply uniform_getitem
    | |- uniform (try_except_ValueError _ _) => apply uniform_try
    | |- uniform (for_each _ _ _) => apply uniform_for_each
    | |- uniform (if ?b then _ else _) => destruct b
    | |- uniform (match ?x with _ => _ end) => destruct x
    end;
  auto with uniform.

Section ValidatorUniform.

Context `{IPLibrary}.

Lemma uniform_parse_source s : uniform (parse_source s).
Proof. unfold parse_source. uniform. Qed.

Lemma uniform_call_overlaps a b : uniform (IP.call_overlaps a b).
Proof. unfold IP.call_overlaps. uniform. Qed.

Lemma uniform_check_overlap s1 d1 s2 d2 :
  uniform (check_overlap s1 d1 s2 d2).
Proof.
  unfold check_overlap.
  uniform; auto using uniform_parse_source, uniform_call_overlaps.
Qed.

Lemma uniform_pair_cond a b : uniform (pair_cond a b).
Proof. unfold pair_cond. uniform; apply uniform_check_overlap. Qed.

Lemma uniform_pair_check mk a b v : uniform (pair_check mk a b v).
Proof. unfold pair_check. uniform; apply uniform_pair_cond. Qed.

Lemma uniform_scan_rule role st r : uniform (scan_rule role st r).
Proof. unfold scan_rule. uniform. Qed.

Lemma uniform_conflict_scan ps ds v : uniform (conflict_scan ps ds v).
Proof. unfold conflict_scan. uniform. apply uniform_pair_check. Qed.

Lemma uniform_index rules i : uniform (index rules i).
Proof. unfold index. uniform. Qed.

Lemma uniform_overlap_scan rules v : uniform (overlap_scan rules v).
Proof.
  unfold overlap_scan.
  uniform; auto using uniform_index, uniform_pair_check.
Qed.

Lemma uniform_validate role rules : uniform (validate_acl_rules role rules).
Proof.
  unfold validate_acl_rules.
  uniform; auto using uniform_scan_rule, uniform_conflict_scan,
    uniform_overlap_scan.
Qed.

End ValidatorUniform.

#[global] Hint Resolve uniform_parse_source uniform_call_overlaps
  uniform_check_overlap uniform_pair_cond uniform_pair_check
  uniform_scan_rule uniform_conflict_scan uniform_index
  uniform_overlap_scan uniform_validate : uniform.

(** ** Loops *)

Lemma run_bind_eq {A B} (m m' : M A) (f f' : A -> M B) log :
  m log = m' log -> (forall a log', f a log' = f' a log') ->
  (m ≫= f) log = (m' ≫= f') log.
Proof.
  intros Hm Hf. unfold mbind, ST_bind. rewrite Hm.
  destruct (m' log) as [[a | e] log']; [apply Hf | done].
Qed.

Lemma for_each_ext {A S} (f g : S -> A -> M S) (l : list A) :
  (forall s x log, f s x log = g s x log) ->
  forall s log, for_each f l s log = for_each g l s log.
Proof.
  intros Hfg. induction l as [| x l IH]; intros s log; simpl; [done |].
  unfold mbind, ST_bind. rewrite Hfg.
  destruct (g s x log) as [[s' | e] log']; [apply IH | done].
Qed.

Lemma for_each_app {A S} (f : S -> A -> M S) (l1 l2 : list A) :
  forall s log,
    for_each f (l1 ++ l2) s log
    = (s' ← for_each f l1 s; for_each f l2 s') log.
Proof.
  induction l1 as [| x l1 IH]; intros s log; simpl; [done |].
  unfold mbind, ST_bind in *.
  destruct (f s x log) as [[s' | e] log']; [apply IH | done].
Qed.

Lemma for_each_map {A B S} (f : S -> B -> M S) (g : A -> B) (l : list A) :
  forall s log,
    for_each f (map g l) s log = for_each (fun s x => f s (g x)) l s log.
Proof.
  induction l as [| x l IH]; intros s log; simpl; [done |].
  unfold mbind, ST_bind.
  destruct (f s (g x) log) as [[s' | e] log']; [apply IH | done].
Qed.

(** ** The pairs the two scans range over *)

Lemma elem_of_product {A B} (l1 : list A) (l2 : list B) a b :
  (a, b) ∈ product l1 l2 <-> a ∈ l1 /\ b ∈ l2.
Proof.
  unfold product. rewrite list_elem_of_In, in_flat_map. split.
  - intros (x & Hx & Hab). apply in_map_iff in Hab as (y & Heq & Hy).
    inversion Heq; subst. by rewrite !list_elem_of_In.
  - intros [Ha Hb]. exists a. rewrite <- list_elem_of_In. split; [done |].
    apply in_map. by apply list_elem_of_In.
Qed.

Lemma elem_of_all_pairs {A} (l : list A) x y :
  (x, y) ∈ all_pairs l
  <-> exists i j, (i < j)%nat /\ l !! i = Some x /\ l !! j = Some y.
Proof.
  induction l as [| z l IH]; simpl.
  - split; [by intros ?%elem_of_nil | by intros (i & j & _ & ? & _)].
  - rewrite elem_of_app, IH, list_elem_of_fmap. split.
    + intros [(y' & Heq & Hy) | (i & j & Hij & Hi & Hj)].
      * inversion Heq; subst. apply list_elem_of_lookup in Hy as [j Hj].
        exists 0%nat, (S j). split; [lia | done].
      * exists (S i), (S j). split; [lia | done].
    + intros (i & j & Hij & Hi & Hj).
      destruct j as [| j]; [lia |]. simpl in Hj.
      destruct i as [| i]; simpl in Hi.
      * left. inversion Hi; subst. exists y. split; [done |].
        apply list_elem_of_lookup. eauto.
      * right. exists i, j. split; [lia | done].
Qed.

Section Scans.

Context `{IPLibrary}.

Lemma conflict_scan_pairs permits denies v log :
  conflict_scan permits denies v log
  = flag_loop Conflict (product permits denies) v log.
Proof.
  unfold conflict_scan, flag_loop, product. revert v log.
  induction permits as [| p ps IH]; intros v log; simpl; [done |].
  rewrite for_each_app. unfold mbind, ST_bind.
  rewrite for_each_map. simpl.
  destruct (for_each _ denies v log) as [[v' | e] log']; [apply IH | done].
Qed.

Lemma inner_scan_suffix (rules : list rule) (i : nat) (x : rule) :
  rules !! i = Some x ->
  forall l k v log,
    (forall n y, l !! n = Some y -> rules !! (k + n)%nat = Some y) ->
    for_each (fun valid j =>
                ri ← index rules i; rj ← index rules j;
                pair_check Overlap ri rj valid)
             (seq k (length l)) v log
    = for_each (fun valid y => pair_check Overlap x y valid) l v log.
Proof.
  intros Hi. induction l as [| y l IH]; intros k v log Hl; [done |].
  assert (Hk : rules !! k = Some y).
  { specialize (Hl 0%nat y eq_refl). by rewrite Nat.add_0_r in Hl. }
  cbn [length seq for_each].
  assert (Hbody : (ri ← index rules i; rj ← index rules k;
                   pair_check Overlap ri rj v) log
                  = pair_check Overlap x y v log).
  { unfold mbind, ST_bind, index. by rewrite Hi, Hk. }
  apply run_bind_eq; [exact Hbody |].
  intros v' log'. apply IH. intros n z Hn. specialize (Hl (S n) z Hn).
  by rewrite Nat.add_succ_r in Hl.
Qed.

Lemma outer_scan_suffix (rules : list rule) :
  forall l k v log,
    (k + length l)%nat = length rules ->
    (forall n y, l !! n = Some y -> rules !! (k + n)%nat = Some y) ->
    for_each (fun valid i =>
                for_each (fun valid j =>
                            ri ← index rules i; rj ← index rules j;
                            pair_check Overlap ri rj valid)
                         (range (i + 1) (length rules)) valid)
             (seq k (length l)) v log
    = flag_loop Overlap (all_pairs l) v log.
Proof.
  unfold flag_loop.
  induction l as [| x l IH]; intros k v log Hlen Hl; simpl; [done |].
  rewrite for_each_app. unfold mbind, ST_bind. rewrite for_each_map. simpl.
  simpl in Hlen.
  replace (range (k + 1) (length rules)) with (seq (S k) (length l))
    by (unfold range; f_equal; lia).
  rewrite (inner_scan_suffix rules k x).
  - destruct (for_each _ l v log) as [[v' | e] log']; [| done].
    apply IH; [lia |]. intros n y Hn. specialize (Hl (S n) y Hn).
    by rewrite Nat.add_succ_r in Hl.
  - specialize (Hl 0%nat x eq_refl). by rewrite Nat.add_0_r in Hl.
  - intros n y Hn. specialize (Hl (S n) y Hn).
    by rewrite Nat.add_succ_r in Hl.
Qed.

(** The index loops of lines 112 and 113 visit exactly the pairs of
    positions [i < j]. *)
Lemma overlap_scan_pairs rules v log :
  overlap_scan rules v log = flag_loop Overlap (all_pairs rules) v log.
Proof.
  unfold overlap_scan, range. rewrite Nat.sub_0_r.
  apply outer_scan_suffix; [done | by intros n y].
Qed.

(** *** One pair *)

Lemma evs_check_overlap s1 d1 s2 d2 :
  evs (check_overlap s1 d1 s2 d2) = []
  \/ (evs (check_overlap s1 d1 s2 d2) = [IPAddressError]
      /\ out (check_overlap s1 d1 s2 d2) = Ret false).
Proof.
  unfold evs, out, check_overlap, try_except_ValueError, parse_source,
    IP.call_overlaps, mbind, ST_bind, mret, ST_ret, raise, logging.
  repeat case_match; simplify_eq; simpl; auto.
Qed.

Lemma evs_pair_cond a b :
  evs (pair_cond a b) = []
  \/ (evs (pair_cond a b) = [IPAddressError]
      /\ out (pair_cond a b) = Ret false).
Proof.
  unfold evs, out, pair_cond, getitem, mbind, ST_bind, mret, ST_ret, raise.
  destruct (a !! "protocol") as [pa |]; [| by left].
  destruct (b !! "protocol") as [pb |]; [| by left].
  cbv beta iota. destruct (value_eqb pa pb); [| by left].
  destruct (a !! "source") as [s1 |]; [| by left].
  destruct (a !! "destination") as [d1 |]; [| by left].
  destruct (b !! "source") as [s2 |]; [| by left].
  destruct (b !! "destination") as [d2 |]; [| by left].
  apply evs_check_overlap.
Qed.

Lemma findings_evs_pair_cond a b : findings (evs (pair_cond a b)) = [].
Proof. by destruct (evs_pair_cond a b) as [-> | [-> _]]. Qed.

Lemma out_pair_check mk a b v :
  out (pair_check mk a b v)
  = match out (pair_cond a b) with
    | Ret c => Ret (if c then false else v)
    | Raise e => Raise e
    end.
Proof.
  unfold pair_check. rewrite out_bind by uniform.
  destruct (out (pair_cond a b)) as [[|] | e]; reflexivity.
Qed.

Lemma evs_pair_check mk a b v :
  evs (pair_check mk a b v)
  = evs (pair_cond a b)
      ++ match out (pair_cond a b) with
         | Ret true => [mk a b]
         | _ => []
         end.
Proof.
  unfold pair_check. rewrite evs_bind by uniform.
  destruct (out (pair_cond a b)) as [[|] | e]; reflexivity.
Qed.

(** *** A loop over pairs *)

Lemma out_flag_loop_cons mk a b ps v :
  out (flag_loop mk ((a, b) :: ps) v)
  = match out (pair_cond a b) with
    | Ret c => out (flag_loop mk ps (if c then false else v))
    | Raise e => Raise e
    end.
Proof.
  unfold flag_loop. cbn [for_each]. rewrite out_bind by uniform.
  cbn [fst snd]. rewrite out_pair_check.
  destruct (out (pair_cond a b)); reflexivity.
Qed.

Lemma evs_flag_loop_cons mk a b ps v :
  evs (flag_loop mk ((a, b) :: ps) v)
  = evs (pair_cond a b)
      ++ match out (pair_cond a b) with
         | Ret c => (if c then [mk a b] else [])
                      ++ evs (flag_loop mk ps (if c then false else v))
         | Raise e => []
         end.
Proof.
  unfold flag_loop. cbn [for_each]. rewrite evs_bind by uniform.
  cbn [fst snd]. rewrite out_pair_check, evs_pair_check, <- app_assoc.
  destruct (out (pair_cond a b)) as [[|] | e]; reflexivity.
Qed.

Lemma flag_loop_returns mk ps : forall v b,
  (forall a b, is_finding (mk a b) = true) ->
  out (flag_loop mk ps v) = Ret b ->
  Forall examined ps
  /\ findings (evs (flag_loop mk ps v))
     = map (fun ab => mk ab.1 ab.2) (List.filter flagged ps)
  /\ b = v && forallb (fun ab => negb (flagged ab)) ps.
Proof.
  intros v b Hmk. revert v b.
  induction ps as [| [a0 b0] ps IH]; intros v b Hout.
  - inversion Hout; subst. by rewrite andb_true_r.
  - rewrite out_flag_loop_cons in Hout. rewrite evs_flag_loop_cons.
    unfold findings in *. rewrite List.filter_app.
    fold (findings (evs (pair_cond a0 b0))). rewrite findings_evs_pair_cond.
    destruct (out (pair_cond a0 b0)) as [c | e] eqn:Hc; [| done].
    assert (Hfl : flagged (a0, b0) = c).
    { unfold flagged. cbn [fst snd]. rewrite Hc.
      destruct c; [by rewrite bool_decide_true | by rewrite bool_decide_false]. }
    destruct (IH _ _ Hout) as (Hex & Hfind & Hb).
    split; [constructor; [by exists c | done] |].
    cbn [List.filter forallb app]. rewrite List.filter_app, Hfind, Hfl.
    destruct c; simpl.
    + rewrite Hmk. split; [done |]. rewrite Hb. by rewrite andb_false_r.
    + done.
Qed.

Lemma flag_loop_total mk ps : forall v,
  Forall examined ps -> exists b, out (flag_loop mk ps v) = Ret b.
Proof.
  induction ps as [| [a0 b0] ps IH]; intros v Hex.
  - by exists v.
  - inversion Hex as [| ? ? [c Hc] Hps]; subst. cbn [fst snd] in Hc.
    rewrite out_flag_loop_cons, Hc. by apply IH.
Qed.

Lemma flag_loop_events mk ps : forall v e,
  e ∈ evs (flag_loop mk ps v) ->
  e = IPAddressError
  \/ exists a b, (a, b) ∈ ps /\ e = mk a b /\ out (pair_cond a b) = Ret true.
Proof.
  induction ps as [| [a0 b0] ps IH]; intros v e He.
  - by apply elem_of_nil in He.
  - rewrite evs_flag_loop_cons in He. apply elem_of_app in He as [He | He].
    + left. destruct (evs_pair_cond a0 b0) as [Hn | [Hn _]];
        rewrite Hn in He; [by apply elem_of_nil in He |].
      by apply list_elem_of_singleton in He.
    + destruct (out (pair_cond a0 b0)) as [c | ex] eqn:Hc;
        [| by apply elem_of_nil in He].
      apply elem_of_app in He as [He | He].
      * destruct c; [| by apply elem_of_nil in He].
        apply list_elem_of_singleton in He. right. exists a0, b0.
        split; [apply list_elem_of_here | done].
      * destruct (IH _ _ He) as [-> | (a & b & Hab & -> & Hout)];
          [by left |].
        right. exists a, b. split; [by apply list_elem_of_further | done].
Qed.

Lemma flag_loop_not_true mk ps : forall v,
  out (flag_loop mk ps v) = Ret true -> v = true.
Proof.
  induction ps as [| [a0 b0] ps IH]; intros v Hout.
  - by inversion Hout.
  - rewrite out_flag_loop_cons in Hout.
    destruct (out (pair_cond a0 b0)) as [c | e]; [| done].
    apply IH in Hout. by destruct c.
Qed.

End Scans.

(** ** The first loop, rule by rule *)

Lemma has_key_lookup (d : gmap string value) k :
  has_key d k = true -> exists v, d !! k = Some v.
Proof.
  unfold has_key. intros Hk. apply bool_decide_eq_true in Hk as [v Hv]. eauto.
Qed.

Lemma missing_required_false r :
  missing_required r = false ->
  exists n a p,
    r !! "acl_number" = Some n /\ r !! "action" = Some a
    /\ r !! "protocol" = Some p.
Proof.
  unfold missing_required. intros Hm.
  apply orb_false_iff in Hm as [Hm Hp].
  apply orb_false_iff in Hm as [Hn Ha].
  apply negb_false_iff in Hn, Ha, Hp.
  apply has_key_lookup in Hn as [n Hn].
  apply has_key_lookup in Ha as [a Ha].
  apply has_key_lookup in Hp as [p Hp].
  by exists n, a, p.
Qed.

Lemma union_singleton_elem (n : value) (X : gset value) :
  n ∈ X -> {[ n ]} ∪ X = X.
Proof. intros Hn. apply subseteq_union_1_L. by apply singleton_subseteq_l. Qed.

Lemma is_deny_action r a :
  r !! "action" = Some a -> is_deny r = value_eqb a (VStr "deny").
Proof.
  intros Ha. unfold is_deny, value_eqb. rewrite Ha.
  apply bool_decide_ext. split; congruence.
Qed.

Lemma is_permit_action r a :
  r !! "action" = Some a -> is_permit r = value_eqb a (VStr "permit").
Proof.
  intros Ha. unfold is_permit, value_eqb. rewrite Ha.
  apply bool_decide_ext. split; congruence.
Qed.

Lemma scan_rule_run role st r :
  out (scan_rule role st r) = Ret (scan_next role st r)
  /\ evs (scan_rule role st r) = scan_events role st r.
Proof.
  unfold scan_next, scan_events, denied.
  destruct (missing_required r) eqn:Hm.
  { unfold out, evs, scan_rule. by rewrite Hm. }
  destruct (missing_required_false r Hm) as (n & a & p & Hn & Ha & Hp).
  assert (Hexcl : value_eqb a (VStr "permit") = true ->
                  value_eqb a (VStr "deny") = false).
  { unfold value_eqb. intros ->%bool_decide_eq_true.
    by rewrite bool_decide_false. }
  rewrite Hn, (is_deny_action r a), (is_permit_action r a) by done.
  unfold out, evs, scan_rule, getitem, mbind, ST_bind, mret, ST_ret, logging.
  rewrite Hm, Hn, Ha.
  destruct (bool_decide (n ∈ seen_acls st)) eqn:Hin;
    [apply bool_decide_eq_true in Hin;
     rewrite (union_singleton_elem n (seen_acls st)) by done |];
    destruct (is_read_only role), (value_eqb a (VStr "permit")) eqn:Hp';
    try (rewrite (Hexcl eq_refl));
    try destruct (value_eqb a (VStr "deny"));
    cbn; rewrite ?app_nil_r, ?andb_true_r, ?andb_false_r;
    try done; by destruct st.
Qed.

Lemma scan_loop_run role rules : forall st,
  out (for_each (scan_rule role) rules st)
    = Ret (foldl (scan_next role) st rules)
  /\ evs (for_each (scan_rule role) rules st) = scan_log role st rules.
Proof.
  induction rules as [| r rules IH]; intros st; [done |].
  cbn [for_each foldl scan_log].
  rewrite out_bind, evs_bind by uniform.
  destruct (scan_rule_run role st r) as [-> ->].
  by destruct (IH (scan_next role st r)) as [-> ->].
Qed.

Lemma findings_scan_events role st r :
  findings (scan_events role st r) = scan_events role st r.
Proof. unfold scan_events. by repeat case_match. Qed.

Lemma findings_scan_log role rules : forall st,
  findings (scan_log role st rules) = scan_log role st rules.
Proof.
  induction rules as [| r rules IH]; intros st; [done |].
  cbn [scan_log]. unfold findings in *.
  rewrite List.filter_app, IH. f_equal. apply findings_scan_events.
Qed.

(** The verdict variable after an iteration is still [True] exactly when it
    was and the iteration logged nothing. *)
Lemma valid_scan_next role st r :
  valid (scan_next role st r)
  = valid st && bool_decide (scan_events role st r = []).
Proof.
  unfold scan_next, scan_events.
  destruct (missing_required r); [by rewrite andb_false_r |].
  destruct (denied role r); [by rewrite andb_false_r |]. cbn [orb].
  destruct (r !! "acl_number") as [n |]; [| by rewrite andb_true_r].
  cbn [valid]. by destruct (bool_decide (n ∈ seen_acls st)).
Qed.

Lemma valid_scan_loop role rules : forall st,
  valid (foldl (scan_next role) st rules)
  = valid st && bool_decide (scan_log role st rules = []).
Proof.
  induction rules as [| r rules IH]; intros st.
  - by rewrite andb_true_r.
  - cbn [foldl scan_log]. rewrite IH, valid_scan_next, <- andb_assoc.
    f_equal. apply eq_true_iff_eq.
    rewrite andb_true_iff, !bool_decide_eq_true. split.
    + by intros [-> ->].
    + by intros [? ?]%app_eq_nil.
Qed.

Lemma permit_rules_scan_loop role rules : forall st,
  permit_rules (foldl (scan_next role) st rules)
  = permit_rules st
      ++ List.filter (fun r => admitted role r && is_permit r) rules.
Proof.
  induction rules as [| r rules IH]; intros st.
  - by rewrite app_nil_r.
  - cbn [foldl List.filter]. rewrite IH. unfold scan_next, admitted.
    destruct (missing_required r) eqn:Hm; [done |].
    destruct (denied role r); [done |]. cbn [orb negb andb].
    destruct (missing_required_false r Hm) as (n & a & p & -> & _).
    cbn [permit_rules]. rewrite <- app_assoc. by destruct (is_permit r).
Qed.

Lemma deny_rules_scan_loop role rules : forall st,
  deny_rules (foldl (scan_next role) st rules)
  = deny_rules st
      ++ List.filter (fun r => admitted role r && is_deny r) rules.
Proof.
  induction rules as [| r rules IH]; intros st.
  - by rewrite app_nil_r.
  - cbn [foldl List.filter]. rewrite IH. unfold scan_next, admitted.
    destruct (missing_required r) eqn:Hm; [done |].
    destruct (denied role r); [done |]. cbn [orb negb andb].
    destruct (missing_required_false r Hm) as (n & a & p & -> & _).
    cbn [deny_rules]. rewrite <- app_assoc. by destruct (is_deny r).
Qed.

(** ** The whole run *)

Section Run.

Context `{IPLibrary}.

Lemma out_conflict_scan ps ds v :
  out (conflict_scan ps ds v) = out (flag_loop Conflict (product ps ds) v).
Proof. unfold out. by rewrite conflict_scan_pairs. Qed.

Lemma evs_conflict_scan ps ds v :
  evs (conflict_scan ps ds v) = evs (flag_loop Conflict (product ps ds) v).
Proof. unfold evs. by rewrite conflict_scan_pairs. Qed.

Lemma out_overlap_scan rules v :
  out (overlap_scan rules v) = out (flag_loop Overlap (all_pairs rules) v).
Proof. unfold out. by rewrite overlap_scan_pairs. Qed.

Lemma evs_overlap_scan rules v :
  evs (overlap_scan rules v) = evs (flag_loop Overlap (all_pairs rules) v).
Proof. unfold evs. by rewrite overlap_scan_pairs. Qed.

(** [validate_acl_rules] is the first loop, which always completes, then the
    two pair loops, each entered only if nothing raised before it. *)
Lemma validate_run role rules :
  out (validate_acl_rules role rules)
    = match out (conflict_loop role rules) with
      | Ret v => out (flag_loop Overlap (all_pairs rules) v)
      | Raise e => Raise e
      end
  /\ evs (validate_acl_rules role rules)
    = scan_log role scan0 rules
        ++ evs (conflict_loop role rules)
        ++ match out (conflict_loop role rules) with
           | Ret v => evs (flag_loop Overlap (all_pairs rules) v)
           | Raise e => []
           end.
Proof.
  unfold validate_acl_rules, conflict_loop, conflict_pairs, scanned.
  rewrite out_bind, evs_bind by uniform.
  destruct (scan_loop_run role rules scan0) as [-> ->].
  rewrite out_bind, evs_bind by uniform.
  rewrite out_conflict_scan, evs_conflict_scan.
  destruct (out (flag_loop Conflict _ _)) as [v | e]; [| done].
  rewrite out_bind, evs_bind by uniform.
  rewrite out_overlap_scan, evs_overlap_scan.
  destruct (out (flag_loop Overlap _ v)) as [v' | e]; by rewrite ?app_nil_r.
Qed.

End Run.

(** ** Counting findings *)

Lemma count_app {A} (P : A -> bool) l1 l2 :
  count P (l1 ++ l2) = (count P l1 + count P l2)%nat.
Proof. unfold count. by rewrite List.filter_app, length_app. Qed.

Lemma count_cons {A} (P : A -> bool) x l :
  count P (x :: l) = ((if P x then 1 else 0) + count P l)%nat.
Proof. unfold count. cbn [List.filter]. by destruct (P x). Qed.


Section Counting.

Context `{IPLibrary}.



Lemma denials_scan_log role rules : forall st,
  denials (scan_log role st rules)
  = count (fun r => negb (missing_required r) && denied role r) rules.
Proof.
  unfold denials.
  induction rules as [| r rules IH]; intros st; [done |].
  cbn [scan_log]. rewrite count_app, IH, count_cons. f_equal.
  unfold scan_events.
  destruct (missing_required r); [done |].
  destruct (denied role r); [done |]. cbn [negb andb].
  destruct (r !! "acl_number") as [n |]; [| done].
  by destruct (bool_decide (n ∈ seen_acls st)).
Qed.



(** ** Completion *)

Lemma range_rule_examined a b :
  range_rule a = true -> range_rule b = true -> examined (a, b).
Proof.
  unfold range_rule, examined. cbn [fst snd]. intros Ha Hb.
  apply andb_true_iff in Ha as [Ha Hsa]. apply andb_true_iff in Ha as [Hpa Hda].
  apply andb_true_iff in Hb as [Hb Hsb]. apply andb_true_iff in Hb as [Hpb Hdb].
  apply has_key_lookup in Hpa as [pa Hpa]. apply has_key_lookup in Hda as [da Hda].
  apply has_key_lookup in Hpb as [pb Hpb]. apply has_key_lookup in Hdb as [db Hdb].
  destruct (a !! "source") as [[sa | ?] |] eqn:Hsa'; try discriminate.
  destruct (b !! "source") as [[sb | ?] |] eqn:Hsb'; try discriminate.
  unfold out, pair_cond, getitem, mbind, ST_bind, mret, ST_ret.
  rewrite Hpa, Hpb, Hda, Hdb, Hsa', Hsb'. cbv beta iota.
  destruct (value_eqb pa pb); [| by exists false].
  unfold check_overlap, try_except_ValueError, parse_source, mbind, ST_bind,
    mret, ST_ret, raise, logging.
  rewrite Hsa, Hsb.
  destruct (ip_network sa) as [na |]; [| by exists false].
  destruct (ip_network sb) as [nb |]; [| by exists false].
  by exists (IP.overlaps na nb).
Qed.

Lemma validate_returns role rules :
  forallb range_rule rules = true ->
  exists b, out (validate_acl_rules role rules) = Ret b.
Proof.
  intros Hr. rewrite forallb_forall in Hr.
  destruct (validate_run role rules) as [-> _].
  assert (Hc : Forall examined (conflict_pairs role rules)).
  { apply Forall_forall. intros [p d] Hpd.
    apply elem_of_product in Hpd as [Hp Hd]. unfold scanned in Hp, Hd.
    rewrite permit_rules_scan_loop in Hp. rewrite deny_rules_scan_loop in Hd.
    cbn [scan0 permit_rules deny_rules app] in Hp, Hd.
    apply list_elem_of_In, filter_In in Hp as [Hp _].
    apply list_elem_of_In, filter_In in Hd as [Hd _].
    apply range_rule_examined; by apply Hr. }
  destruct (flag_loop_total Conflict _ (valid (scanned role rules)) Hc)
    as [v Hv].
  unfold conflict_loop. rewrite Hv.
  apply flag_loop_total. apply Forall_forall. intros [x y] Hxy.
  apply elem_of_all_pairs in Hxy as (i & j & _ & Hi & Hj).
  apply range_rule_examined; apply Hr, list_elem_of_In;
    eapply list_elem_of_lookup_2; eauto.
Qed.

(** A verdict [True] means that the first loop logged nothing. *)
Lemma validate_true_scan role rules :
  out (validate_acl_rules role rules) = Ret true ->
  scan_log role scan0 rules = [].
Proof.
  destruct (validate_run role rules) as [-> _]. unfold conflict_loop.
  destruct (out (flag_loop Conflict _ _)) as [v | e] eqn:Hc; [| done].
  intros Ho. apply flag_loop_not_true in Ho. subst v.
  apply flag_loop_not_true in Hc. unfold scanned in Hc.
  rewrite valid_scan_loop in Hc. cbn [scan0 valid andb] in Hc.
  by apply bool_decide_eq_true in Hc.
Qed.

(** Once the first loop has logged something, the verdict variable is
    [False] when the loop ends; the call then never returns [True], and
    returns [False] when every rule has the shape [range_rule]. *)
Lemma validate_false role rules :
  scan_log role scan0 rules <> [] ->
  (exists st, out (for_each (scan_rule role) rules scan0) = Ret st
              /\ valid st = false)
  /\ out (validate_acl_rules role rules) <> Ret true
  /\ (forallb range_rule rules = true ->
      out (validate_acl_rules role rules) = Ret false).
Proof.
  intros Hlog.
  assert (Hnt : out (validate_acl_rules role rules) <> Ret true).
  { intros Ht. by apply validate_true_scan in Ht. }
  split; [| split; [done |]].
  - exists (foldl (scan_next role) scan0 rules).
    split; [apply scan_loop_run |].
    rewrite valid_scan_loop. by rewrite bool_decide_false.
  - intros Hr.
    destruct (validate_returns role rules Hr) as [[|] Hb]; done.
Qed.

End Counting.

(** ** The overlap primitive *)

Lemma overlaps_sym (n1 n2 : IP.Network) : IP.overlaps n1 n2 = IP.overlaps n2 n1.
Proof.
  unfold IP.overlaps.
  destruct (IP.contains n2 _), (IP.contains n2 _), (IP.contains n1 _),
    (IP.contains n1 _); reflexivity.
Qed.

Lemma check_overlap_ranges `{IPLibrary} a b d1 d2 na nb log :
  char_in "/" a = true -> char_in "/" b = true ->
  ip_network a = Some na -> ip_network b = Some nb ->
  check_overlap (VStr a) d1 (VStr b) d2 log = (Ret (IP.overlaps na nb), log).
Proof.
  intros Ha Hb Hna Hnb.
  unfold check_overlap, try_except_ValueError, parse_source, mbind, ST_bind.
  rewrite Ha, Hb, Hna, Hnb. reflexivity.
Qed.

Module OverlapFacts.
Import IP IPFacts.

Lemma mask_nested v p q :
  0 <= p <= q -> q <= max_prefixlen v ->
  Z.land (ip_int_from_prefix v q) (ip_int_from_prefix v p)
  = ip_int_from_prefix v p.
Proof.
  intros Hpq Hq. apply Z.bits_inj'. intros i Hi.
  rewrite Z.land_spec, !testbit_ip_int_from_prefix by lia.
  destruct (Z.leb_spec (max_prefixlen v - p) i),
           (Z.leb_spec (max_prefixlen v - q) i),
           (Z.ltb_spec i (max_prefixlen v)); simpl; try reflexivity; lia.
Qed.

Lemma hostmask_disjoint n :
  0 <= prefixlen n <= max_prefixlen (n_version n) ->
  Z.land (hostmask n) (netmask n) = 0.
Proof.
  intros Hp. apply Z.bits_inj'. intros i Hi.
  unfold hostmask, netmask.
  rewrite Z.land_spec, Z.lxor_spec, Z.bits_0, testbit_ALL_ONES,
    testbit_ip_int_from_prefix by lia.
  destruct (Z.leb_spec (max_prefixlen (n_version n) - prefixlen n) i),
           (Z.ltb_spec i (max_prefixlen (n_version n))); reflexivity.
Qed.

Lemma broadcast_range n :
  valid_network n -> 0 <= broadcast_address n <= ALL_ONES (n_version n).
Proof.
  intros (Hp & Hn & _). unfold broadcast_address, hostmask, netmask.
  pose proof (ip_int_from_prefix_range (n_version n) (prefixlen n) Hp).
  pose proof (ALL_ONES_nonneg (n_version n)).
  apply in_range_of_bits.
  - apply Z.lor_nonneg. split; [lia |]. apply Z.lxor_nonneg. lia.
  - intros i Hi.
    rewrite Z.lor_spec, Z.lxor_spec, testbit_ALL_ONES,
      testbit_ip_int_from_prefix,
      (bits_of_in_range (n_version n) (network_address n))
      by (pose proof (max_prefixlen_pos (n_version n)); lia).
    destruct (Z.ltb_spec i (max_prefixlen (n_version n))); [lia |].
    by rewrite andb_false_r.
Qed.

(** The first and the last address of a network are in it. *)
Lemma contains_network_address n :
  valid_network n -> contains n (address_of n (network_address n)) = true.
Proof.
  intros (_ & _ & Hm). unfold contains, address_of. cbn [a_version a_ip].
  rewrite bool_decide_true by done. cbn [negb]. by apply Z.eqb_eq.
Qed.

Lemma contains_broadcast_address n :
  valid_network n -> contains n (address_of n (broadcast_address n)) = true.
Proof.
  intros (Hp & _ & Hm). unfold contains, address_of. cbn [a_version a_ip].
  rewrite bool_decide_true by done. cbn [negb]. apply Z.eqb_eq.
  unfold broadcast_address.
  by rewrite Z.land_lor_distr_l, Hm, hostmask_disjoint, Z.lor_0_r.
Qed.

Lemma contains_inv n a :
  contains n a = true ->
  n_version n = a_version a /\ Z.land (a_ip a) (netmask n) = network_address n.
Proof.
  unfold contains.
  destruct (bool_decide (n_version n = a_version a)) eqn:Hv; [| done].
  apply bool_decide_eq_true in Hv. cbn [negb]. by intros ?%Z.eqb_eq.
Qed.

(** Two networks overlap, as [_BaseNetwork.overlaps] computes it, exactly when
    some address lies in both. *)
Lemma overlaps_iff_shared_address n1 n2 :
  valid_network n1 -> valid_network n2 ->
  overlaps n1 n2 = true
  <-> exists a, valid_address a /\ contains n1 a = true
                /\ contains n2 a = true.
Proof.
  intros Hv1 Hv2. unfold overlaps. rewrite !orb_true_iff. split.
  - intros [Hc | [Hc | [Hc | Hc]]].
    + exists (address_of n1 (network_address n1)). split; [apply Hv1 |].
      by rewrite contains_network_address.
    + exists (address_of n1 (broadcast_address n1)).
      split; [by apply broadcast_range |].
      by rewrite contains_broadcast_address.
    + exists (address_of n2 (network_address n2)). split; [apply Hv2 |].
      by rewrite contains_network_address.
    + exists (address_of n2 (broadcast_address n2)).
      split; [by apply broadcast_range |].
      by rewrite contains_broadcast_address.
  - intros (a & _ & [Hver1 Hin1]%contains_inv & [Hver2 Hin2]%contains_inv).
    destruct Hv1 as (Hp1 & _ & _), Hv2 as (Hp2 & _ & _).
    unfold netmask in *.
    destruct (Z.le_ge_cases (prefixlen n1) (prefixlen n2)) as [Hle | Hle].
    + right. right. left. unfold contains, address_of.
      cbn [a_version a_ip]. rewrite bool_decide_true by congruence.
      cbn [negb]. apply Z.eqb_eq. unfold netmask.
      rewrite <- Hin2, <- Hin1, <- Z.land_assoc. f_equal.
      rewrite Hver1, <- Hver2. apply mask_nested; lia.
    + left. unfold contains, address_of.
      cbn [a_version a_ip]. rewrite bool_decide_true by congruence.
      cbn [negb]. apply Z.eqb_eq. unfold netmask.
      rewrite <- Hin1, <- Hin2, <- Z.land_assoc. f_equal.
      rewrite Hver2, <- Hver1. apply mask_nested; lia.
Qed.

End OverlapFacts.

(** On two texts with a prefix-length marker that parse as ranges,
    [check_overlap] returns, and returns [True] exactly when the two ranges
    share an address. *)
Lemma check_overlap_ranges_shared `{IPLibrary} a b d1 d2 na nb :
  char_in "/" a = true -> char_in "/" b = true ->
  ip_network a = Some na -> ip_network b = Some nb ->
  exists c,
    out (check_overlap (VStr a) d1 (VStr b) d2) = Ret c
    /\ (c = true <-> exists x, IP.valid_address x
                              /\ IP.contains na x = true
                              /\ IP.contains nb x = true).
Proof.
  intros Ha Hb Hna Hnb. exists (IP.overlaps na nb). unfold out.
  rewrite (check_overlap_ranges a b d1 d2 na nb) by done.
  split; [done |].
  apply OverlapFacts.overlaps_iff_shared_address;
    eauto using ip_network_valid.
Qed.

(** Text that does not parse, in either source, makes the comparison
    [False] and is logged; nothing is raised. *)
Lemma check_overlap_malformed `{IPLibrary} a s2 d1 d2 log :
  (if char_in "/" a then ip_network a = None else ip_address a = None) ->
  check_overlap (VStr a) d1 s2 d2 log = (Ret false, log ++ [IPAddressError]).
Proof.
  intros Ha.
  unfold check_overlap, try_except_ValueError, parse_source, mbind, ST_bind,
    raise, logging.
  destruct (char_in "/" a); by rewrite Ha.
Qed.

Lemma check_overlap_malformed_second `{IPLibrary} a b d1 d2 log :
  (if char_in "/" a then is_Some (ip_network a) else is_Some (ip_address a)) ->
  (if char_in "/" b then ip_network b = None else ip_address b = None) ->
  check_overlap (VStr a) d1 (VStr b) d2 log
  = (Ret false, log ++ [IPAddressError]).
Proof.
  intros Ha Hb.
  unfold check_overlap, try_except_ValueError, parse_source, mbind, ST_bind,
    mret, ST_ret, raise, logging.
  destruct (char_in "/" a), (char_in "/" b); destruct Ha as [x ->];
    by rewrite Hb.
Qed.

(** A source without a prefix-length marker that parses, against another
    source that parses: the call raises instead of comparing. *)
Lemma check_overlap_single_address `{IPLibrary} a b d1 d2 log :
  char_in "/" a = false \/ char_in "/" b = false ->
  (if char_in "/" a then is_Some (ip_network a) else is_Some (ip_address a)) ->
  (if char_in "/" b then is_Some (ip_network b) else is_Some (ip_address b)) ->
  exists e, check_overlap (VStr a) d1 (VStr b) d2 log = (Raise e, log)
            /\ (e = AttributeError \/ e = TypeError).
Proof.
  intros Hab Ha Hb.
  unfold check_overlap, try_except_ValueError, parse_source, mbind, ST_bind,
    mret, ST_ret, raise, logging, IP.call_overlaps.
  destruct (char_in "/" a), (char_in "/" b); destruct Ha as [x ->];
    destruct Hb as [y ->]; cbv beta iota.
  - by destruct Hab.
  - exists TypeError. auto.
  - exists AttributeError. auto.
  - exists AttributeError. auto.
Qed.

(** ** Findings of the first loop *)



(** ** Acceptance *)

Section Acceptance.

Context `{IPLibrary}.

Lemma pairwise_disjoint_elem rules a b :
  pairwise_disjoint rules = true -> a ∈ rules -> b ∈ rules -> a <> b ->
  overlap_free a b = true.
Proof.
  unfold pairwise_disjoint. rewrite forallb_forall.
  intros Hall Ha Hb Hne. apply list_elem_of_In in Ha, Hb.
  specialize (Hall a Ha). rewrite forallb_forall in Hall.
  specialize (Hall b Hb). by rewrite bool_decide_false in Hall.
Qed.

Lemma overlap_free_cond a b :
  has_key a "protocol" = true -> has_key b "protocol" = true ->
  overlap_free a b = true -> out (pair_cond a b) = Ret false.
Proof.
  intros [pa Hpa]%has_key_lookup [pb Hpb]%has_key_lookup.
  unfold overlap_free, out, pair_cond, getitem, mbind, ST_bind, mret, ST_ret.
  rewrite Hpa, Hpb. cbv beta iota. unfold value_eqb.
  destruct (decide (pa = pb)) as [-> | Hne].
  - rewrite !bool_decide_true by done. cbn [negb orb].
    destruct (a !! "source") as [s1 |]; [| done].
    destruct (a !! "destination") as [d1 |]; [| done].
    destruct (b !! "source") as [s2 |]; [| done].
    destruct (b !! "destination") as [d2 |]; [| done].
    by intros ?%bool_decide_eq_true.
  - by rewrite (bool_decide_false (pa = pb)) by done.
Qed.

Lemma flag_loop_clean mk ps : forall v,
  Forall (fun ab => out (pair_cond ab.1 ab.2) = Ret false) ps ->
  out (flag_loop mk ps v) = Ret v
  /\ findings (evs (flag_loop mk ps v)) = [].
Proof.
  induction ps as [| [a b] ps IH]; intros v Hps; [done |].
  inversion Hps as [| ? ? Hab Hps']; subst. cbn [fst snd] in Hab.
  rewrite out_flag_loop_cons, evs_flag_loop_cons, Hab. cbv iota. cbn [app].
  destruct (IH v Hps') as [-> Hf]. split; [done |].
  unfold findings in *. rewrite List.filter_app.
  fold (findings (evs (pair_cond a b))).
  by rewrite findings_evs_pair_cond, Hf.
Qed.

Lemma scan_log_clean role rules : forall st,
  Forall (fun r => missing_required r = false /\ denied role r = false)
         rules ->
  NoDup (map (fun r => r !! "acl_number") rules) ->
  (forall r n, r ∈ rules -> r !! "acl_number" = Some n ->
               n ∉ seen_acls st) ->
  scan_log role st rules = [].
Proof.
  induction rules as [| r rules IH]; intros st Hall Hnd Hseen; [done |].
  inversion Hall as [| ? ? [Hm Hd] Hall']; subst.
  cbn [map] in Hnd. apply NoDup_cons in Hnd as [Hr Hnd].
  cbn [scan_log]. unfold scan_events at 1. unfold scan_next.
  rewrite Hm, Hd. cbn [orb].
  destruct (missing_required_false r Hm) as (n & a & p & Hn & _).
  rewrite Hn.
  rewrite bool_decide_false
    by (apply (Hseen r n); [apply list_elem_of_here | done]).
  cbn [app]. apply IH; [done | done |].
  intros r' n' Hr' Hn'. cbn [seen_acls].
  rewrite elem_of_union, elem_of_singleton. intros [-> | Hin].
  - apply Hr. rewrite Hn, <- Hn'.
    apply list_elem_of_fmap. by exists r'.
  - apply (Hseen r' n'); [by apply list_elem_of_further | done | done].
Qed.

Lemma complete_rule_fields r :
  complete_rule r = true ->
  missing_required r = false /\ has_key r "protocol" = true.
Proof.
  unfold complete_rule, missing_required.
  intros Hc. repeat (apply andb_true_iff in Hc as [Hc ?]).
  by repeat match goal with Hk : _ = true |- _ => rewrite Hk; clear Hk end.
Qed.

End Acceptance.

(** ** Complete scans *)

Section Complete.

Context `{IPLibrary}.

Lemma check_overlap_true s1 d1 s2 d2 :
  out (check_overlap s1 d1 s2 d2) = Ret true ->
  exists a b na nb,
    s1 = VStr a /\ s2 = VStr b /\ char_in "/" a = true /\ char_in "/" b = true
    /\ ip_network a = Some na /\ ip_network b = Some nb
    /\ IP.overlaps na nb = true.
Proof.
  unfold out, check_overlap, try_except_ValueError, parse_source,
    IP.call_overlaps, mbind, ST_bind, mret, ST_ret, raise, logging.
  destruct s1 as [a |]; [| done]. destruct s2 as [b |].
  - destruct (char_in "/" a) eqn:Ha.
    + destruct (ip_network a) as [na |] eqn:Hna; [| done].
      destruct (char_in "/" b) eqn:Hb.
      * destruct (ip_network b) as [nb |] eqn:Hnb; [| done].
        cbn [fst]. intros Hov. inversion Hov as [Hov'].
        exists a, b, na, nb. by rewrite Hov'.
      * by destruct (ip_address b).
    + destruct (ip_address a); [| done].
      destruct (char_in "/" b);
        [by destruct (ip_network b) | by destruct (ip_address b)].
  - destruct (char_in "/" a);
      [by destruct (ip_network a) | by destruct (ip_address a)].
Qed.

Lemma pair_cond_true a b :
  out (pair_cond a b) = Ret true ->
  exists p s1 d1 s2 d2,
    a !! "protocol" = Some p /\ b !! "protocol" = Some p
    /\ a !! "source" = Some s1 /\ a !! "destination" = Some d1
    /\ b !! "source" = Some s2 /\ b !! "destination" = Some d2
    /\ out (check_overlap s1 d1 s2 d2) = Ret true.
Proof.
  unfold out at 1, pair_cond, getitem, mbind, ST_bind, mret, ST_ret, raise.
  destruct (a !! "protocol") as [pa |]; [| done].
  destruct (b !! "protocol") as [pb |]; [| done].
  cbv beta iota. unfold value_eqb.
  destruct (bool_decide (pa = pb)) eqn:Hp; [| done].
  apply bool_decide_eq_true in Hp as ->.
  destruct (a !! "source") as [s1 |]; [| done].
  destruct (a !! "destination") as [d1 |]; [| done].
  destruct (b !! "source") as [s2 |]; [| done].
  destruct (b !! "destination") as [d2 |]; [| done].
  intros Hov. by exists pb, s1, d1, s2, d2.
Qed.

Lemma pair_cond_true_intro a b p s1 d1 s2 d2 :
  a !! "protocol" = Some p -> b !! "protocol" = Some p ->
  a !! "source" = Some s1 -> a !! "destination" = Some d1 ->
  b !! "source" = Some s2 -> b !! "destination" = Some d2 ->
  out (check_overlap s1 d1 s2 d2) = Ret true ->
  out (pair_cond a b) = Ret true.
Proof.
  intros Hpa Hpb Hs1 Hd1 Hs2 Hd2 Hov.
  unfold out at 1, pair_cond, getitem, mbind, ST_bind, mret, ST_ret, raise.
  rewrite Hpa, Hpb. cbv beta iota. unfold value_eqb.
  rewrite bool_decide_true by done. by rewrite Hs1, Hd1, Hs2, Hd2.
Qed.

(** A pair test that is true is true in the other order too. *)
Lemma pair_cond_true_sym a b :
  out (pair_cond a b) = Ret true -> out (pair_cond b a) = Ret true.
Proof.
  intros (p & s1 & d1 & s2 & d2 & Hpa & Hpb & Hs1 & Hd1 & Hs2 & Hd2 & Hov)
    %pair_cond_true.
  apply (pair_cond_true_intro b a p s2 d2 s1 d1); try done.
  apply check_overlap_true in Hov
    as (x & y & nx & ny & -> & -> & Hx & Hy & Hnx & Hny & Hov).
  unfold out. rewrite (check_overlap_ranges y x d2 d1 ny nx) by done.
  cbn [fst]. by rewrite overlaps_sym, Hov.
Qed.

Lemma elem_of_scan_log_missing role rules r : forall st,
  MissingField r ∈ scan_log role st rules
  <-> r ∈ rules /\ missing_required r = true.
Proof.
  induction rules as [| r0 rules IH]; intros st.
  - cbn [scan_log]. split; [by intros ?%elem_of_nil |].
    by intros [?%elem_of_nil _].
  - cbn [scan_log]. rewrite elem_of_app, IH, elem_of_cons.
    unfold scan_events. destruct (missing_required r0) eqn:Hm.
    + rewrite list_elem_of_singleton. split.
      * intros [Heq | [? ?]]; [| by auto]. inversion Heq; subst. auto.
      * intros [[-> | ?] ?]; [by left | by right].
    + split.
      * intros [Hin | [? ?]]; [| by auto]. exfalso.
        destruct (denied role r0);
          [by apply list_elem_of_singleton in Hin |].
        destruct (r0 !! "acl_number") as [n |];
          [| by apply elem_of_nil in Hin].
        destruct (bool_decide (n ∈ seen_acls st));
          [by apply list_elem_of_singleton in Hin
          | by apply elem_of_nil in Hin].
      * intros [[-> | ?] Hmr]; [congruence | by right].
Qed.

Lemma scan_log_kinds role rules e : forall st,
  e ∈ scan_log role st rules ->
  (exists r, e = MissingField r) \/ e = PermissionDenied
  \/ exists n, e = DuplicateAcl n.
Proof.
  induction rules as [| r0 rules IH]; intros st.
  - by intros ?%elem_of_nil.
  - cbn [scan_log]. rewrite elem_of_app. intros [Hin | Hin]; [| by eapply IH].
    unfold scan_events in Hin.
    destruct (missing_required r0).
    { apply list_elem_of_singleton in Hin. left. by exists r0. }
    destruct (denied role r0).
    { apply list_elem_of_singleton in Hin. right. by left. }
    destruct (r0 !! "acl_number") as [n |]; [| by apply elem_of_nil in Hin].
    destruct (bool_decide (n ∈ seen_acls st));
      [| by apply elem_of_nil in Hin].
    apply list_elem_of_singleton in Hin. right. right. by exists n.
Qed.

Lemma elem_of_findings e log : e ∈ findings log -> e ∈ log.
Proof.
  unfold findings. rewrite !list_elem_of_In, filter_In. by intros [? _].
Qed.

(** A pair of the list whose test is true is reported by a loop that
    returns. *)
Lemma flag_loop_reports mk ps v b x y :
  (forall a b, is_finding (mk a b) = true) ->
  out (flag_loop mk ps v) = Ret b ->
  (x, y) ∈ ps ->
  examined (x, y)
  /\ (out (pair_cond x y) = Ret true -> mk x y ∈ evs (flag_loop mk ps v)).
Proof.
  intros Hmk Hout Hxy.
  destruct (flag_loop_returns mk ps v b Hmk Hout) as (Hex & Hf & _).
  split; [by eapply Forall_forall in Hex |].
  intros Htrue. apply elem_of_findings. rewrite Hf.
  apply (list_elem_of_fmap_2 (fun ab => mk ab.1 ab.2) _ (x, y)).
  apply list_elem_of_In, filter_In. split; [by apply list_elem_of_In |].
  unfold flagged. cbn [fst snd]. by rewrite bool_decide_true.
Qed.

End Complete.

(** X9: no finding ends a scan.  In a call that returns, whatever was found
    before, every rule went through the field check ([missing-field] is
    logged for exactly the rules that lack a required field), the test of
    every permit and deny pair and of every pair of positions [i < j] was
    evaluated and every true test was reported, and every pair reported as a
    conflict by the second loop is reported again as an overlap by the
    third. *)
Lemma validate_examines_everything `{IPLibrary}
    (current_role : option string) (rules : list rule) (b : bool) :
  out (validate_acl_rules current_role rules) = Ret b ->
  (forall r, MissingField r ∈ evs (validate_acl_rules current_role rules)
             <-> r ∈ rules /\ missing_required r = true)
  /\ (forall p d,
        p ∈ rules -> d ∈ rules ->
        admitted current_role p = true -> is_permit p = true ->
        admitted current_role d = true -> is_deny d = true ->
        (exists c, out (pair_cond p d) = Ret c)
        /\ (out (pair_cond p d) = Ret true ->
            Conflict p d ∈ evs (validate_acl_rules current_role rules)))
  /\ (forall i j ri rj,
        (i < j)%nat -> rules !! i = Some ri -> rules !! j = Some rj ->
        (exists c, out (pair_cond ri rj) = Ret c)
        /\ (out (pair_cond ri rj) = Ret true ->
            Overlap ri rj ∈ evs (validate_acl_rules current_role rules)))
  /\ (forall p d,
        Conflict p d ∈ evs (validate_acl_rules current_role rules) ->
        Overlap p d ∈ evs (validate_acl_rules current_role rules)
        \/ Overlap d p ∈ evs (validate_acl_rules current_role rules)).
Proof.
  intros Hret. destruct (validate_run current_role rules) as [Ho ->].
  rewrite Ho in Hret. clear Ho.
  destruct (out (conflict_loop current_role rules)) as [v1 |] eqn:Hc;
    [| done].
  unfold conflict_loop in *.
  set (cl := flag_loop Conflict (conflict_pairs current_role rules)
               (valid (scanned current_role rules))) in *.
  set (ol := flag_loop Overlap (all_pairs rules) v1) in *.
  assert (Hpermit : forall p, p ∈ permit_rules (scanned current_role rules)
            <-> p ∈ rules /\ admitted current_role p = true
                /\ is_permit p = true).
  { intros p. unfold scanned. rewrite permit_rules_scan_loop.
    cbn [scan0 permit_rules app].
    rewrite !list_elem_of_In, filter_In, andb_true_iff. tauto. }
  assert (Hdeny : forall d, d ∈ deny_rules (scanned current_role rules)
            <-> d ∈ rules /\ admitted current_role d = true
                /\ is_deny d = true).
  { intros d. unfold scanned. rewrite deny_rules_scan_loop.
    cbn [scan0 deny_rules app].
    rewrite !list_elem_of_In, filter_In, andb_true_iff. tauto. }
  assert (Hover : forall i j ri rj,
            (i < j)%nat -> rules !! i = Some ri -> rules !! j = Some rj ->
            examined (ri, rj)
            /\ (out (pair_cond ri rj) = Ret true -> Overlap ri rj ∈ evs ol)).
  { intros i j ri rj Hij Hi Hj.
    apply (flag_loop_reports Overlap (all_pairs rules) v1 b); [done | done |].
    apply elem_of_all_pairs. by exists i, j. }
  split; [| split; [| split]].
  - intros r. rewrite !elem_of_app, elem_of_scan_log_missing. split.
    + intros [? | [Hin | Hin]]; [done | |]; exfalso.
      * by destruct (flag_loop_events _ _ _ _ Hin)
          as [? | (? & ? & _ & ? & _)].
      * by destruct (flag_loop_events _ _ _ _ Hin)
          as [? | (? & ? & _ & ? & _)].
    + by left.
  - intros p d Hp Hd Hap Hpp Had Hdd.
    destruct (flag_loop_reports Conflict (conflict_pairs current_role rules)
                (valid (scanned current_role rules)) v1 p d)
      as [Hex Hrep]; [done | done | |].
    { apply elem_of_product. by rewrite Hpermit, Hdeny. }
    split; [exact Hex |]. intros Ht. rewrite !elem_of_app.
    right. left. by apply Hrep.
  - intros i j ri rj Hij Hi Hj.
    destruct (Hover i j ri rj Hij Hi Hj) as [Hex Hrep].
    split; [exact Hex |]. intros Ht. rewrite !elem_of_app.
    right. right. by apply Hrep.
  - intros p d. rewrite !elem_of_app. intros [Hin | [Hin | Hin]].
    + by destruct (scan_log_kinds _ _ _ _ Hin) as [[? ?] | [? | [? ?]]].
    + destruct (flag_loop_events _ _ _ _ Hin)
        as [? | (p' & d' & Hpd & Heq & Ht)]; [done |].
      inversion Heq; subst p' d'. clear Heq.
      apply elem_of_product in Hpd as [Hp Hd].
      apply Hpermit in Hp as (Hp & _ & Hpp).
      apply Hdeny in Hd as (Hd & _ & Hdd).
      apply list_elem_of_lookup in Hp as [i Hi].
      apply list_elem_of_lookup in Hd as [j Hj].
      assert (Hne : i <> j).
      { intros ->. rewrite Hi in Hj. inversion Hj; subst.
        unfold is_permit, is_deny in *.
        apply bool_decide_eq_true in Hpp, Hdd. congruence. }
      destruct (Nat.lt_total i j) as [Hlt | [? | Hlt]]; [| done |].
      * left. right. right. by apply (Hover i j p d).
      * right. right. right. apply (Hover j i d p); [done | done | done |].
        by apply pair_cond_true_sym.
    + by destruct (flag_loop_events _ _ _ _ Hin)
        as [? | (? & ? & _ & ? & _)].
Qed.

Lemma validate_examines_everything_example :
  Conflict Samples.permit_a Samples.deny_in_a
    ∈ evs (validate_acl_rules (Some "read-write")
             [Samples.deny_in_a; Samples.permit_b; Samples.permit_a])
  /\ Overlap Samples.deny_in_a Samples.permit_a
       ∈ evs (validate_acl_rules (Some "read-write")
                [Samples.deny_in_a; Samples.permit_b; Samples.permit_a]).
Proof.
  pose proof (validate_examines_everything (H := ipv4_text)
                (Some "read-write")
                [Samples.deny_in_a; Samples.permit_b; Samples.permit_a]
                false) as Hall.
  destruct Hall as (_ & Hconf & Hover & _); [vm_compute; reflexivity |].
  split.
  - apply (Hconf Samples.permit_a Samples.deny_in_a);
      try (vm_compute; reflexivity).
    + apply list_elem_of_further, list_elem_of_further, list_elem_of_here.
    + apply list_elem_of_here.
  - apply (Hover 0%nat 2%nat); try (vm_compute; reflexivity). lia.
Defined.

(** With two rules or more, one of them without [protocol], the call never
    returns a verdict. *)
Lemma missing_protocol_never_returns `{IPLibrary} role rules r b :
  (2 <= length rules)%nat -> r ∈ rules -> has_key r "protocol" = false ->
  out (validate_acl_rules role rules) <> Ret b.
Proof.
  intros Hlen Hr Hk Hret.
  destruct (validate_run role rules) as [Ho _]. rewrite Ho in Hret.
  destruct (out (conflict_loop role rules)) as [v |]; [| done].
  destruct (flag_loop_returns Overlap (all_pairs rules) v b) as (Hex & _);
    [done | done |].
  assert (Hraise : forall x, ~ examined (r, x) /\ ~ examined (x, r)).
  { intros x. unfold examined, out, pair_cond, getitem, mbind, ST_bind.
    cbn [fst snd]. unfold has_key in Hk. apply bool_decide_eq_false in Hk.
    destruct (r !! "protocol") as [p |] eqn:Hp; [by destruct Hk |].
    split; [by intros [c Hc] |].
    destruct (x !! "protocol"); by intros [c Hc]. }
  apply list_elem_of_lookup in Hr as [k Hrk].
  rewrite Forall_forall in Hex.
  destruct k as [| k].
  - destruct (lookup_lt_is_Some_2 rules 1%nat) as [x Hx]; [lia |].
    apply (proj1 (Hraise x)), Hex, elem_of_all_pairs.
    exists 0%nat, 1%nat. split; [lia | done].
  - destruct (lookup_lt_is_Some_2 rules 0%nat) as [x Hx]; [lia |].
    apply (proj2 (Hraise x)), Hex, elem_of_all_pairs.
    exists 0%nat, (S k). split; [lia | done].
Qed.

(** * The claims *)

(** ** The overlap primitive *)

(** C2, at the specification's own example: the range [10.0.0.0/24] against
    the single address [10.0.0.5] inside it.  [check_overlap] does not
    report an overlap: it raises, [TypeError] with the range first and
    [AttributeError] with the address first, and so does a single address
    against itself. *)
Theorem check_overlap_single_address_raises :
  check_overlap (VStr "10.0.0.0/24") (VStr "8.8.8.8")
                (VStr "10.0.0.5") (VStr "9.9.9.9") []
    = (Raise TypeError, [])
  /\ check_overlap (VStr "10.0.0.5") (VStr "9.9.9.9")
                   (VStr "10.0.0.0/24") (VStr "8.8.8.8") []
    = (Raise AttributeError, [])
  /\ check_overlap (VStr "10.0.0.5") (VStr "9.9.9.9")
                   (VStr "10.0.0.5") (VStr "8.8.8.8") []
    = (Raise AttributeError, []).
Proof. repeat split; vm_compute; reflexivity. Qed.

(** C3: two calls of [check_overlap] that agree on the two source values give
    the same result whatever the two destination values are: the
    destinations are accepted and never used. *)
Theorem check_overlap_ignores_destinations `{IPLibrary}
    (source1 source2 dest1 dest2 dest1' dest2' : value) (log : list event) :
  check_overlap source1 dest1 source2 dest2 log
  = check_overlap source1 dest1' source2 dest2' log.
Proof. reflexivity. Qed.

(** C10: on two texts that both carry a prefix-length marker and parse as
    ranges, [check_overlap] is symmetric, whatever the destinations. *)
Theorem check_overlap_symmetric `{IPLibrary} (a b : string) (d1 d2 : value)
    (na nb : IP.Network) (log : list event) :
  char_in "/" a = true -> char_in "/" b = true ->
  ip_network a = Some na -> ip_network b = Some nb ->
  check_overlap (VStr a) d1 (VStr b) d2 log
  = check_overlap (VStr b) d2 (VStr a) d1 log.
Proof.
  intros Ha Hb Hna Hnb.
  rewrite (check_overlap_ranges a b d1 d2 na nb) by done.
  rewrite (check_overlap_ranges b a d2 d1 nb na) by done.
  by rewrite overlaps_sym.
Qed.

Lemma check_overlap_symmetric_witness :
  check_overlap (VStr "10.0.0.0/24") (VStr "8.8.8.8")
                (VStr "10.0.0.128/25") (VStr "9.9.9.9") []
  = check_overlap (VStr "10.0.0.128/25") (VStr "9.9.9.9")
                  (VStr "10.0.0.0/24") (VStr "8.8.8.8") [].
Proof.
  apply (check_overlap_symmetric (H := ipv4_text)
           "10.0.0.0/24" "10.0.0.128/25" (VStr "8.8.8.8") (VStr "9.9.9.9")
           {| IP.n_version := IP.V4; IP.network_address := 167772160;
              IP.prefixlen := 24 |}
           {| IP.n_version := IP.V4; IP.network_address := 167772288;
              IP.prefixlen := 25 |} []); reflexivity.
Defined.

(** ** The validator *)

(** C1, at two permit rules on the distinct single addresses [10.0.0.1] and
    [10.0.0.2]: [validate_acl_rules] returns no verdict, the pair scan
    raises [AttributeError] out of it. *)
Theorem validate_raises_on_single_addresses :
  validate_acl_rules (Some "read-write")
    [Samples.permit_host1; Samples.permit_host2] []
  = (Raise AttributeError, []).
Proof. vm_compute. reflexivity. Qed.

(** C4, as the code has it: a rule set whose rules all carry the five
    fields, with pairwise distinct numbers, in which [check_overlap] returns
    [False] on every two distinct rules of equal protocol, is accepted with
    no finding, provided that the role is not read-only or no rule has the
    action [deny]. *)
Theorem validate_accepts `{IPLibrary} (current_role : option string)
    (rules : list rule) :
  forallb complete_rule rules = true ->
  NoDup (map (fun r => r !! "acl_number") rules) ->
  pairwise_disjoint rules = true ->
  is_read_only current_role = false
    \/ forallb (fun r => negb (is_deny r)) rules = true ->
  out (validate_acl_rules current_role rules) = Ret true
  /\ findings (evs (validate_acl_rules current_role rules)) = [].
Proof.
  intros Hc Hnd Hdis Hrole. rewrite forallb_forall in Hc.
  assert (Hlog : scan_log current_role scan0 rules = []).
  { apply scan_log_clean; [| done |].
    - apply Forall_forall. intros r Hr. apply list_elem_of_In in Hr.
      split; [by apply complete_rule_fields, Hc |].
      unfold denied. destruct Hrole as [-> | Hnone]; [done |].
      rewrite forallb_forall in Hnone. specialize (Hnone r Hr).
      apply negb_true_iff in Hnone. rewrite Hnone. apply andb_false_r.
    - intros r n _ _. apply not_elem_of_empty. }
  assert (Hkey : forall r, r ∈ rules -> has_key r "protocol" = true).
  { intros r Hr. by apply complete_rule_fields, Hc, list_elem_of_In. }
  assert (Hcp : Forall (fun ab => out (pair_cond ab.1 ab.2) = Ret false)
                       (conflict_pairs current_role rules)).
  { apply Forall_forall. intros [p d] Hpd. cbn [fst snd].
    apply elem_of_product in Hpd as [Hp Hd]. unfold scanned in Hp, Hd.
    rewrite permit_rules_scan_loop in Hp. rewrite deny_rules_scan_loop in Hd.
    cbn [scan0 permit_rules deny_rules app] in Hp, Hd.
    apply list_elem_of_In, filter_In in Hp as [Hp Hpp].
    apply list_elem_of_In, filter_In in Hd as [Hd Hdd].
    apply andb_true_iff in Hpp as [_ Hpp]. apply andb_true_iff in Hdd as [_ Hdd].
    apply list_elem_of_In in Hp, Hd.
    apply overlap_free_cond; [by apply Hkey | by apply Hkey |].
    apply (pairwise_disjoint_elem rules); [done | done | done |].
    intros ->. unfold is_permit, is_deny in *.
    apply bool_decide_eq_true in Hpp, Hdd. congruence. }
  assert (Hap : Forall (fun ab => out (pair_cond ab.1 ab.2) = Ret false)
                       (all_pairs rules)).
  { apply Forall_forall. intros [x y] Hxy. cbn [fst snd].
    apply elem_of_all_pairs in Hxy as (i & j & Hij & Hi & Hj).
    assert (Hx : x ∈ rules) by (eapply list_elem_of_lookup_2; eauto).
    assert (Hy : y ∈ rules) by (eapply list_elem_of_lookup_2; eauto).
    apply overlap_free_cond; [by apply Hkey | by apply Hkey |].
    apply (pairwise_disjoint_elem rules); [done | done | done |].
    intros ->.
    assert (i = j); [| lia].
    eapply (NoDup_lookup _ i j (y !! "acl_number")); [exact Hnd | |];
      by rewrite list_lookup_fmap, ?Hi, ?Hj. }
  destruct (validate_run current_role rules) as [-> ->].
  unfold conflict_loop, scanned. rewrite valid_scan_loop, Hlog.
  cbn [scan0 valid andb app]. rewrite bool_decide_true by done.
  destruct (flag_loop_clean Conflict _ true Hcp) as [Hout Hf].
  fold (scanned current_role rules).
  fold (conflict_pairs current_role rules) in Hout, Hf |- *.
  rewrite Hout.
  destruct (flag_loop_clean Overlap _ true Hap) as [Hout' Hf'].
  split; [done |].
  unfold findings in *. by rewrite List.filter_app, Hf, Hf'.
Qed.

Lemma validate_accepts_witness :
  out (validate_acl_rules (Some "read-only")
         [Samples.permit_a; Samples.permit_b]) = Ret true
  /\ findings (evs (validate_acl_rules (Some "read-only")
                      [Samples.permit_a; Samples.permit_b])) = [].
Proof.
  apply (validate_accepts (H := ipv4_text) (Some "read-only")
           [Samples.permit_a; Samples.permit_b]).
  - vm_compute; reflexivity.
  - vm_compute. apply NoDup_cons. split; [| apply NoDup_singleton].
    intros Hin%list_elem_of_singleton. discriminate Hin.
  - vm_compute; reflexivity.
  - right. vm_compute; reflexivity.
Defined.

(** C4 fails as stated under the read-only role: a single complete deny
    rule has no duplicate and no pair to overlap with, and is rejected with
    a [permission-denied] finding. *)
Lemma validate_rejects_deny_read_only :
  forallb complete_rule [Samples.deny_c] = true
  /\ NoDup (map (fun r : rule => r !! "acl_number") [Samples.deny_c])
  /\ pairwise_disjoint [Samples.deny_c] = true
  /\ validate_acl_rules (Some "read-only") [Samples.deny_c] []
     = (Ret false, [PermissionDenied]).
Proof.
  split; [vm_compute; reflexivity |].
  split; [apply NoDup_singleton |].
  split; vm_compute; reflexivity.
Qed.




(** C6, at a rule without [protocol] followed by a complete rule: the
    missing field is reported, then the pair scan raises [KeyError] on the
    subscript [rules[i]['protocol']]. *)
Theorem validate_raises_on_missing_protocol :
  validate_acl_rules (Some "read-write")
    [Samples.no_protocol; Samples.permit_a] []
  = (Raise (KeyError "protocol"), [MissingField Samples.no_protocol]).
Proof. vm_compute. reflexivity. Qed.



(** C8, at two inputs on which a scan ends before it has examined every
    pair.  On the specification's first example the second loop raises
    [TypeError] on its only pair, and the third loop is never entered.  On a
    rule without [protocol] followed by a permit rule and a deny rule that
    overlap, the second loop reports the conflict, then the third loop
    raises [KeyError] on its first pair: the pair of positions 1 and 2,
    whose test is true, is never examined by the third loop and is not
    reported again as an overlap. *)
Theorem validate_aborts_pair_scan :
  validate_acl_rules (Some "read-write")
    [Samples.permit_range; Samples.deny_host_dup] []
  = (Raise TypeError, [DuplicateAcl (VInt 1)])
  /\ validate_acl_rules (Some "read-write")
       [Samples.no_protocol; Samples.permit_a; Samples.deny_in_a] []
     = (Raise (KeyError "protocol"),
        [MissingField Samples.no_protocol;
         Conflict Samples.permit_a Samples.deny_in_a])
  /\ out (pair_cond Samples.permit_a Samples.deny_in_a) = Ret true.
Proof. repeat split; vm_compute; reflexivity. Qed.

(** ** The gate on the applier *)

(** C9: when the validator returns [False], [configure_acls] logs the
    verdict and returns: no session is opened, no backup is taken, no
    command is built, printed or sent. *)
Theorem configure_acls_aborts `{IPLibrary} `{Environment}
    (current_role : option string) (d : device) (rules : list rule)
    (dry_run : bool) (w : world) :
  fst (validate_acl_rules current_role rules (w_log w)) = Ret false ->
  configure_acls current_role d rules dry_run w
  = (Ret tt,
     {| w_log := snd (validate_acl_rules current_role rules (w_log w))
                   ++ [ValidationFailed];
        w_io := w_io w |}).
Proof.
  intros Hv. unfold configure_acls, on_log, mbind, ST_bind.
  destruct (validate_acl_rules current_role rules (w_log w)) as [r log].
  simpl in Hv. subst r. reflexivity.
Qed.

Lemma configure_acls_aborts_witness :
  configure_acls (H := ipv4_text) (H0 := Samples.quiet) (Some "read-only")
    Samples.router [Samples.deny_c] false {| w_log := []; w_io := [] |}
  = (Ret tt, {| w_log := [PermissionDenied; ValidationFailed]; w_io := [] |}).
Proof.
  apply (configure_acls_aborts (H := ipv4_text) (H0 := Samples.quiet)
           (Some "read-only") Samples.router [Samples.deny_c] false
           {| w_log := []; w_io := [] |}).
  vm_compute. reflexivity.
Defined.

(** * Further properties *)

(** ** The overlap primitive *)

(** X1: on two texts with a prefix-length marker that parse as ranges,
    [check_overlap] returns, logs nothing, and answers [True] exactly when
    some address lies in both ranges. *)
Theorem check_overlap_ranges_iff_shared `{IPLibrary} (a b : string)
    (d1 d2 : value) (na nb : IP.Network) (log : list event) :
  char_in "/" a = true -> char_in "/" b = true ->
  ip_network a = Some na -> ip_network b = Some nb ->
  exists c,
    check_overlap (VStr a) d1 (VStr b) d2 log = (Ret c, log)
    /\ (c = true <-> exists x, IP.valid_address x
                              /\ IP.contains na x = true
                              /\ IP.contains nb x = true).
Proof.
  intros Ha Hb Hna Hnb. exists (IP.overlaps na nb).
  split; [by apply check_overlap_ranges |].
  apply OverlapFacts.overlaps_iff_shared_address;
    eauto using ip_network_valid.
Qed.

Lemma check_overlap_ranges_iff_shared_witness :
  exists c,
    check_overlap (VStr "10.0.0.0/24") (VStr "8.8.8.8")
                  (VStr "10.0.0.128/25") (VStr "9.9.9.9") [] = (Ret c, [])
    /\ (c = true
        <-> exists x, IP.valid_address x
              /\ IP.contains {| IP.n_version := IP.V4;
                                IP.network_address := 167772160;
                                IP.prefixlen := 24 |} x = true
              /\ IP.contains {| IP.n_version := IP.V4;
                                IP.network_address := 167772288;
                                IP.prefixlen := 25 |} x = true).
Proof.
  apply (check_overlap_ranges_iff_shared (H := ipv4_text)
           "10.0.0.0/24" "10.0.0.128/25" (VStr "8.8.8.8") (VStr "9.9.9.9"));
    reflexivity.
Defined.

Lemma parses_false `{IPLibrary} s :
  parses s = false ->
  if char_in "/" s then ip_network s = None else ip_address s = None.
Proof.
  unfold parses. destruct (char_in "/" s); intros Hp;
    apply bool_decide_eq_false in Hp;
    [destruct (ip_network s) | destruct (ip_address s)];
    try done; by destruct Hp.
Qed.

Lemma parses_true `{IPLibrary} s :
  parses s = true ->
  if char_in "/" s then is_Some (ip_network s) else is_Some (ip_address s).
Proof.
  unfold parses. destruct (char_in "/" s); intros Hp;
    by apply bool_decide_eq_true in Hp.
Qed.

(** X2: when the text of either source does not parse, [check_overlap]
    answers [False], logs one address error and raises nothing, whatever
    the other source and the destinations are. *)
Theorem check_overlap_unparsable `{IPLibrary} (a b : string)
    (d1 d2 : value) (log : list event) :
  parses a = false \/ parses b = false ->
  check_overlap (VStr a) d1 (VStr b) d2 log
  = (Ret false, log ++ [IPAddressError]).
Proof.
  intros Hab. destruct (parses a) eqn:Ha.
  - destruct Hab as [? | Hb]; [done |].
    apply check_overlap_malformed_second;
      [by apply parses_true | by apply parses_false].
  - by apply check_overlap_malformed, parses_false.
Qed.

Lemma check_overlap_unparsable_witness :
  check_overlap (VStr "10.0.0.0/24") (VStr "8.8.8.8")
                (VStr "10.0.0.300") (VStr "9.9.9.9") []
  = (Ret false, [IPAddressError]).
Proof.
  apply (check_overlap_unparsable (H := ipv4_text)
           "10.0.0.0/24" "10.0.0.300" (VStr "8.8.8.8") (VStr "9.9.9.9") []).
  right. vm_compute. reflexivity.
Defined.

(** X3: when both source texts parse and one of them has no prefix-length
    marker, [check_overlap] raises [AttributeError] or [TypeError] and logs
    nothing: the [except ValueError] clause does not catch either. *)
Theorem check_overlap_raises_on_address `{IPLibrary} (a b : string)
    (d1 d2 : value) (log : list event) :
  parses a = true -> parses b = true ->
  char_in "/" a = false \/ char_in "/" b = false ->
  exists e, check_overlap (VStr a) d1 (VStr b) d2 log = (Raise e, log)
            /\ (e = AttributeError \/ e = TypeError).
Proof.
  intros Ha Hb Hab.
  apply check_overlap_single_address; [done | |]; by apply parses_true.
Qed.

Lemma check_overlap_raises_on_address_witness :
  exists e,
    check_overlap (VStr "192.168.1.1") (VStr "8.8.8.8")
                  (VStr "192.168.1.0/24") (VStr "9.9.9.9") [] = (Raise e, [])
    /\ (e = AttributeError \/ e = TypeError).
Proof.
  apply (check_overlap_raises_on_address (H := ipv4_text)
           "192.168.1.1" "192.168.1.0/24" (VStr "8.8.8.8") (VStr "9.9.9.9") []).
  - vm_compute. reflexivity.
  - vm_compute. reflexivity.
  - left. vm_compute. reflexivity.
Defined.

(** ** The validator *)

Lemma filter_nil_forallb {A} (f : A -> bool) l :
  forallb (fun x => negb (f x)) l = true <-> List.filter f l = [].
Proof.
  induction l as [| x l IH]; [done |]. cbn [forallb List.filter].
  destruct (f x); cbn [negb andb]; [done | exact IH].
Qed.

Section Verdict.

Context `{IPLibrary}.

(** What a call that returns has computed. *)
Lemma validate_returned role rules b :
  out (validate_acl_rules role rules) = Ret b ->
  exists v,
    out (conflict_loop role rules) = Ret v
    /\ out (flag_loop Overlap (all_pairs rules) v) = Ret b
    /\ evs (validate_acl_rules role rules)
       = scan_log role scan0 rules ++ evs (conflict_loop role rules)
           ++ evs (flag_loop Overlap (all_pairs rules) v).
Proof.
  intros Hret. destruct (validate_run role rules) as [Ho He].
  rewrite Ho in Hret. rewrite He.
  destruct (out (conflict_loop role rules)) as [v |]; [| done].
  by exists v.
Qed.

Lemma verdict_findings role rules b :
  out (validate_acl_rules role rules) = Ret b ->
  b = true <-> findings (evs (validate_acl_rules role rules)) = [].
Proof.
  intros (v & Hc & Ho & ->)%validate_returned.
  unfold conflict_loop in *.
  destruct (flag_loop_returns Conflict _ _ _ (fun _ _ => eq_refl) Hc)
    as (_ & Hfc & ->).
  destruct (flag_loop_returns Overlap _ _ _ (fun _ _ => eq_refl) Ho)
    as (_ & Hfo & ->).
  unfold findings in *. rewrite !List.filter_app, Hfc, Hfo.
  fold (findings (scan_log role scan0 rules)). rewrite findings_scan_log.
  unfold scanned. rewrite valid_scan_loop. cbn [scan0 valid andb].
  rewrite !andb_true_iff, bool_decide_eq_true, !filter_nil_forallb.
  split.
  - intros [[-> ->] ->]. done.
  - intros [? [?%fmap_nil_inv ?%fmap_nil_inv]%app_eq_nil]%app_eq_nil. done.
Qed.

Lemma overlap_reported role rules b i j ri rj :
  out (validate_acl_rules role rules) = Ret b ->
  (i < j)%nat -> rules !! i = Some ri -> rules !! j = Some rj ->
  out (pair_cond ri rj) = Ret true ->
  Overlap ri rj ∈ evs (validate_acl_rules role rules).
Proof.
  intros (v & Hc & Ho & ->)%validate_returned Hij Hi Hj Ht.
  rewrite !elem_of_app. right. right.
  apply (flag_loop_reports Overlap (all_pairs rules) v b); try done.
  apply elem_of_all_pairs. by exists i, j.
Qed.

Lemma elem_of_permit_rules role rules p :
  p ∈ permit_rules (scanned role rules)
  <-> p ∈ rules /\ admitted role p = true /\ is_permit p = true.
Proof.
  unfold scanned. rewrite permit_rules_scan_loop.
  cbn [scan0 permit_rules app].
  rewrite !list_elem_of_In, filter_In, andb_true_iff. tauto.
Qed.

Lemma elem_of_deny_rules role rules d :
  d ∈ deny_rules (scanned role rules)
  <-> d ∈ rules /\ admitted role d = true /\ is_deny d = true.
Proof.
  unfold scanned. rewrite deny_rules_scan_loop.
  cbn [scan0 deny_rules app].
  rewrite !list_elem_of_In, filter_In, andb_true_iff. tauto.
Qed.

End Verdict.



(** X5: with two rules or more, one of them without [protocol], the call
    never returns a verdict: the third loop subscripts the field on every
    rule. *)
Theorem validate_needs_protocol `{IPLibrary} (current_role : option string)
    (rules : list rule) (r : rule) (log : list event) :
  (2 <= length rules)%nat -> r ∈ rules -> r !! "protocol" = None ->
  exists e log', validate_acl_rules current_role rules log = (Raise e, log').
Proof.
  intros Hlen Hr Hp.
  rewrite (uniform_validate current_role rules log).
  destruct (out (validate_acl_rules current_role rules)) as [b | e] eqn:Ho.
  - exfalso.
    apply (missing_protocol_never_returns current_role rules r b);
      try done.
    unfold has_key. rewrite Hp. apply bool_decide_eq_false. by intros [? ?].
  - by exists e, (log ++ evs (validate_acl_rules current_role rules)).
Qed.

Lemma validate_needs_protocol_witness :
  exists e log',
    validate_acl_rules (Some "read-write")
      [Samples.permit_a; Samples.permit_b; Samples.no_protocol] []
    = (Raise e, log').
Proof.
  apply (validate_needs_protocol (H := ipv4_text) (Some "read-write")
           [Samples.permit_a; Samples.permit_b; Samples.no_protocol]
           Samples.no_protocol []).
  - simpl. lia.
  - apply list_elem_of_further, list_elem_of_further, list_elem_of_here.
  - vm_compute. reflexivity.
Defined.

(** X6: when [validate_acl_rules] returns, its verdict is [True] exactly
    when it logged no finding. *)
Theorem verdict_iff_no_finding `{IPLibrary} (current_role : option string)
    (rules : list rule) (b : bool) :
  out (validate_acl_rules current_role rules) = Ret b ->
  b = true <-> findings (evs (validate_acl_rules current_role rules)) = [].
Proof. apply verdict_findings. Qed.

Lemma verdict_iff_no_finding_witness :
  false = true
  <-> findings (evs (validate_acl_rules (Some "read-write")
                       [Samples.permit_a; Samples.deny_in_a])) = [].
Proof.
  apply (verdict_iff_no_finding (H := ipv4_text) (Some "read-write")
           [Samples.permit_a; Samples.deny_in_a] false).
  vm_compute. reflexivity.
Defined.




Lemma finding_rejects `{IPLibrary} role rules b e :
  out (validate_acl_rules role rules) = Ret b ->
  e ∈ evs (validate_acl_rules role rules) -> is_finding e = true ->
  b = false.
Proof.
  intros Hret He Hf. destruct b; [| done]. exfalso.
  assert (Hnil : findings (evs (validate_acl_rules role rules)) = [])
    by by apply (verdict_findings role rules true Hret).
  assert (Hin : In e (findings (evs (validate_acl_rules role rules)))).
  { apply filter_In. split; [by apply list_elem_of_In | done]. }
  by rewrite Hnil in Hin.
Qed.



(** X10: no report of the pair loops is spurious.  A conflict report names
    a permit rule and a deny rule of the set that both reached the
    duplicate check, an overlap report names the rules of two positions
    [i < j] in that order, and in both the two rules have the same protocol
    and sources that are ranges with an address in common.  This holds of
    the log of every call, also of one that raises. *)
Theorem pair_reports_sound `{IPLibrary} (current_role : option string)
    (rules : list rule) :
  (forall p d,
      Conflict p d ∈ evs (validate_acl_rules current_role rules) ->
      p ∈ rules /\ d ∈ rules
      /\ admitted current_role p = true /\ is_permit p = true
      /\ admitted current_role d = true /\ is_deny d = true
      /\ ranges_meet p d)
  /\ (forall a b,
        Overlap a b ∈ evs (validate_acl_rules current_role rules) ->
        (exists i j, (i < j)%nat /\ rules !! i = Some a
                     /\ rules !! j = Some b)
        /\ ranges_meet a b).
Proof.
  assert (Hmeet : forall a b, out (pair_cond a b) = Ret true ->
                              ranges_meet a b).
  { intros a b
      (p & s1 & d1 & s2 & d2 & Hpa & Hpb & Hs1 & Hd1 & Hs2 & Hd2 & Hov)
      %pair_cond_true.
    apply check_overlap_true in Hov
      as (x & y & nx & ny & -> & -> & Hx & Hy & Hnx & Hny & Hov).
    split; [congruence |]. exists x, y, nx, ny. repeat (split; [done |]).
    apply OverlapFacts.overlaps_iff_shared_address;
      eauto using ip_network_valid. }
  destruct (validate_run current_role rules) as [_ ->].
  split.
  - intros p d. rewrite !elem_of_app. intros [Hin | [Hin | Hin]].
    + by destruct (scan_log_kinds _ _ _ _ Hin) as [[? ?] | [? | [? ?]]].
    + destruct (flag_loop_events _ _ _ _ Hin)
        as [? | (p' & d' & Hpd & Heq & Ht)]; [done |].
      inversion Heq; subst p' d'.
      apply elem_of_product in Hpd as [Hp Hd].
      apply elem_of_permit_rules in Hp as (? & ? & ?).
      apply elem_of_deny_rules in Hd as (? & ? & ?).
      repeat (split; [done |]). by apply Hmeet.
    + destruct (out (conflict_loop current_role rules));
        [| by apply elem_of_nil in Hin].
      by destruct (flag_loop_events _ _ _ _ Hin)
        as [? | (? & ? & _ & ? & _)].
  - intros a b. rewrite !elem_of_app. intros [Hin | [Hin | Hin]].
    + by destruct (scan_log_kinds _ _ _ _ Hin) as [[? ?] | [? | [? ?]]].
    + by destruct (flag_loop_events _ _ _ _ Hin)
        as [? | (? & ? & _ & ? & _)].
    + destruct (out (conflict_loop current_role rules));
        [| by apply elem_of_nil in Hin].
      destruct (flag_loop_events _ _ _ _ Hin)
        as [? | (a' & b' & Hab & Heq & Ht)]; [done |].
      inversion Heq; subst a' b'.
      split; [by apply elem_of_all_pairs | by apply Hmeet].
Qed.

(** ** Rule sets compared *)

Lemma scan_log_app role l1 l2 : forall st,
  scan_log role st (l1 ++ l2)
  = scan_log role st l1 ++ scan_log role (foldl (scan_next role) st l1) l2.
Proof.
  induction l1 as [| r l1 IH]; intros st; [done |].
  cbn [app scan_log foldl]. by rewrite IH, app_assoc.
Qed.

Lemma forallb_false_elem {A} (f : A -> bool) l :
  forallb f l = false -> exists x, x ∈ l /\ f x = false.
Proof.
  induction l as [| x l IH]; [done |]. cbn [forallb].
  destruct (f x) eqn:Hx.
  - intros (y & Hy & Hfy)%IH. exists y.
    split; [by apply list_elem_of_further | done].
  - intros _. exists x. split; [apply list_elem_of_here | done].
Qed.

Section Compared.

Context `{IPLibrary}.

Lemma conflict_reported role rules b p d :
  out (validate_acl_rules role rules) = Ret b ->
  p ∈ rules -> d ∈ rules ->
  admitted role p = true -> is_permit p = true ->
  admitted role d = true -> is_deny d = true ->
  out (pair_cond p d) = Ret true ->
  Conflict p d ∈ evs (validate_acl_rules role rules).
Proof.
  intros (v & Hc & Ho & ->)%validate_returned Hp Hd Hap Hpp Had Hdd Ht.
  rewrite !elem_of_app. right. left. unfold conflict_loop in *.
  apply (flag_loop_reports Conflict (conflict_pairs role rules)
           (valid (scanned role rules)) v); try done.
  apply elem_of_product.
  by rewrite elem_of_permit_rules, elem_of_deny_rules.
Qed.

(** Why a call returned [False]: the first loop logged something, or a pair
    of one of the two pair loops tested true. *)
Lemma rejected_because role rules :
  out (validate_acl_rules role rules) = Ret false ->
  scan_log role scan0 rules <> []
  \/ (exists p d, (p, d) ∈ conflict_pairs role rules
                  /\ out (pair_cond p d) = Ret true)
  \/ (exists x y, (x, y) ∈ all_pairs rules
                  /\ out (pair_cond x y) = Ret true).
Proof.
  intros (v & Hc & Ho & _)%validate_returned. unfold conflict_loop in Hc.
  destruct (flag_loop_returns Conflict _ _ _ (fun _ _ => eq_refl) Hc)
    as (_ & _ & Hv).
  destruct (flag_loop_returns Overlap _ _ _ (fun _ _ => eq_refl) Ho)
    as (_ & _ & Hb).
  symmetry in Hb. apply andb_false_iff in Hb as [-> | Hb].
  - symmetry in Hv. apply andb_false_iff in Hv as [Hv | Hv].
    + left. unfold scanned in Hv. rewrite valid_scan_loop in Hv.
      cbn [scan0 valid andb] in Hv. by apply bool_decide_eq_false in Hv.
    + right. left.
      apply forallb_false_elem in Hv as ([p d] & Hpd & Hf).
      exists p, d. split; [done |].
      apply negb_false_iff, bool_decide_eq_true in Hf. exact Hf.
  - right. right.
    apply forallb_false_elem in Hb as ([x y] & Hxy & Hf).
    exists x, y. split; [done |].
    apply negb_false_iff, bool_decide_eq_true in Hf. exact Hf.
Qed.

End Compared.

(** X11: appending rules never turns a rejected rule set into an accepted
    one: when the call on [rules] returns [False], a call on
    [rules ++ more] that returns, returns [False]. *)
Theorem rejected_stays_rejected `{IPLibrary} (current_role : option string)
    (rules more : list rule) (b : bool) :
  out (validate_acl_rules current_role rules) = Ret false ->
  out (validate_acl_rules current_role (rules ++ more)) = Ret b ->
  b = false.
Proof.
  intros Hrej Hret.
  destruct (rejected_because current_role rules Hrej)
    as [Hlog | [(p & d & Hpd & Ht) | (x & y & Hxy & Ht)]].
  - destruct b; [| done]. apply validate_true_scan in Hret.
    rewrite scan_log_app in Hret. by apply app_eq_nil in Hret as [? _].
  - apply elem_of_product in Hpd as [Hp Hd].
    apply elem_of_permit_rules in Hp as (Hp & Hap & Hpp).
    apply elem_of_deny_rules in Hd as (Hd & Had & Hdd).
    apply (finding_rejects current_role (rules ++ more) b (Conflict p d));
      [done | | done].
    apply (conflict_reported current_role (rules ++ more) b); try done;
      apply elem_of_app; by left.
  - apply elem_of_all_pairs in Hxy as (i & j & Hij & Hi & Hj).
    apply (finding_rejects current_role (rules ++ more) b (Overlap x y));
      [done | | done].
    apply (overlap_reported current_role (rules ++ more) b i j); try done;
      by apply lookup_app_l_Some.
Qed.

Lemma rejected_stays_rejected_witness :
  exists b,
    out (validate_acl_rules (Some "read-write")
           ([Samples.permit_a; Samples.deny_in_a] ++ [Samples.permit_b]))
    = Ret b /\ b = false.
Proof.
  exists false. split; [vm_compute; reflexivity |].
  apply (rejected_stays_rejected (H := ipv4_text) (Some "read-write")
           [Samples.permit_a; Samples.deny_in_a] [Samples.permit_b] false);
    vm_compute; reflexivity.
Defined.

(** X13: whatever the read-only role may apply, every role may: when the
    call under the role [read-only] returns [True], the call under any role
    runs the same way, to the same verdict and the same log. *)
Theorem accepted_read_only_accepted `{IPLibrary}
    (current_role : option string) (rules : list rule) (log : list event) :
  out (validate_acl_rules (Some "read-only") rules) = Ret true ->
  validate_acl_rules current_role rules log
  = validate_acl_rules (Some "read-only") rules log.
Proof.
  intros Hacc. apply validate_true_scan in Hacc.
  assert (Hstep : forall l st,
            scan_log (Some "read-only") st l = [] ->
            scan_log current_role st l = []
            /\ foldl (scan_next current_role) st l
               = foldl (scan_next (Some "read-only")) st l).
  { induction l as [| r l IH]; intros st Hl; [done |].
    cbn [scan_log foldl] in *. apply app_eq_nil in Hl as [Hr Hl].
    assert (Hsame : scan_events current_role st r = []
                    /\ scan_next current_role st r
                       = scan_next (Some "read-only") st r).
    { unfold scan_events, scan_next, denied in *.
      destruct (missing_required r); [done |].
      change (is_read_only (Some "read-only")) with true in *.
      cbn [andb orb] in *.
      destruct (is_deny r); [done |].
      by rewrite andb_false_r. }
    destruct Hsame as [-> Hnext]. rewrite Hnext.
    by apply IH. }
  destruct (Hstep rules scan0 Hacc) as [Hlog Hst].
  rewrite (uniform_validate current_role rules log),
    (uniform_validate (Some "read-only") rules log).
  destruct (validate_run current_role rules) as [-> ->].
  destruct (validate_run (Some "read-only") rules) as [-> ->].
  unfold conflict_loop, conflict_pairs, scanned.
  by rewrite Hlog, Hacc, Hst.
Qed.

Lemma accepted_read_only_accepted_witness :
  validate_acl_rules (Some "read-write")
    [Samples.permit_a; Samples.permit_b] []
  = validate_acl_rules (Some "read-only")
      [Samples.permit_a; Samples.permit_b] [].
Proof.
  apply (accepted_read_only_accepted (H := ipv4_text) (Some "read-write")
           [Samples.permit_a; Samples.permit_b] []).
  vm_compute. reflexivity.
Defined.

(** ** Destinations *)

Section Destinations.

Context `{IPLibrary}.

Variable g : rule -> value.

Lemma lookup_with_destination r k :
  k <> "destination" -> with_destination g r !! k = r !! k.
Proof. intros Hk. unfold with_destination. by apply lookup_insert_ne. Qed.

Lemma missing_required_with_destination r :
  missing_required (with_destination g r) = missing_required r.
Proof.
  unfold missing_required, has_key.
  by rewrite !lookup_with_destination by done.
Qed.

Lemma is_deny_with_destination r :
  is_deny (with_destination g r) = is_deny r.
Proof. unfold is_deny. by rewrite lookup_with_destination by done. Qed.

Lemma is_permit_with_destination r :
  is_permit (with_destination g r) = is_permit r.
Proof. unfold is_permit. by rewrite lookup_with_destination by done. Qed.

(** The locals of the first loop, the listed rules rewritten. *)
Definition rewrite_scan (st : scan) : scan :=
  {| valid := valid st; seen_acls := seen_acls st;
     permit_rules := map (with_destination g) (permit_rules st);
     deny_rules := map (with_destination g) (deny_rules st) |}.

Lemma scan_next_with_destination role st r :
  scan_next role (rewrite_scan st) (with_destination g r)
  = rewrite_scan (scan_next role st r).
Proof.
  unfold scan_next, denied.
  rewrite missing_required_with_destination, is_deny_with_destination,
    is_permit_with_destination, lookup_with_destination by done.
  destruct (missing_required r || is_read_only role && is_deny r); [done |].
  destruct (r !! "acl_number") as [n |]; [| done].
  unfold rewrite_scan. cbn [valid seen_acls permit_rules deny_rules].
  rewrite !map_app. by destruct (is_permit r), (is_deny r).
Qed.

Lemma scanned_with_destination role rules : forall st,
  foldl (scan_next role) (rewrite_scan st) (map (with_destination g) rules)
  = rewrite_scan (foldl (scan_next role) st rules).
Proof.
  induction rules as [| r rules IH]; intros st; [done |].
  cbn [map foldl]. by rewrite scan_next_with_destination, IH.
Qed.

Lemma pair_cond_with_destination a b :
  has_key a "destination" = true -> has_key b "destination" = true ->
  out (pair_cond (with_destination g a) (with_destination g b))
  = out (pair_cond a b).
Proof.
  intros [d1 Hd1]%has_key_lookup [d2 Hd2]%has_key_lookup.
  assert (Hda : with_destination g a !! "destination" = Some (g a))
    by apply lookup_insert_eq.
  assert (Hdb : with_destination g b !! "destination" = Some (g b))
    by apply lookup_insert_eq.
  unfold out, pair_cond, getitem, mbind, ST_bind, mret, ST_ret, raise.
  rewrite (lookup_with_destination a "protocol") by done.
  destruct (a !! "protocol") as [pa |]; [| done]. cbv beta iota.
  rewrite (lookup_with_destination b "protocol") by done.
  destruct (b !! "protocol") as [pb |]; [| done]. cbv beta iota.
  destruct (value_eqb pa pb); [| done].
  rewrite (lookup_with_destination a "source") by done.
  destruct (a !! "source") as [s1 |]; [| done]. cbv beta iota.
  rewrite Hda, Hd1. cbv beta iota.
  rewrite (lookup_with_destination b "source") by done.
  destruct (b !! "source") as [s2 |]; [| done]. cbv beta iota.
  by rewrite Hdb, Hd2.
Qed.

Definition both (ab : rule * rule) : rule * rule :=
  (with_destination g ab.1, with_destination g ab.2).

Lemma flag_loop_with_destination mk mk' ps : forall v,
  Forall (fun ab => has_key ab.1 "destination" = true
                    /\ has_key ab.2 "destination" = true) ps ->
  out (flag_loop mk' (map both ps) v) = out (flag_loop mk ps v).
Proof.
  induction ps as [| [a b] ps IH]; intros v Hps; [done |].
  inversion Hps as [| ? ? [Ha Hb] Hps']; subst. cbn [fst snd] in Ha, Hb.
  cbn [map]. unfold both at 1. cbn [fst snd].
  rewrite !out_flag_loop_cons, pair_cond_with_destination by done.
  destruct (out (pair_cond a b)) as [c | e]; [by apply IH | done].
Qed.

Lemma product_map {A B} (f : A -> B) (l1 l2 : list A) :
  product (map f l1) (map f l2)
  = map (fun ab => (f ab.1, f ab.2)) (product l1 l2).
Proof.
  unfold product. induction l1 as [| x l1 IH]; [done |].
  cbn [map flat_map]. rewrite map_app, IH. f_equal.
  by rewrite !map_map.
Qed.

Lemma all_pairs_map {A B} (f : A -> B) (l : list A) :
  all_pairs (map f l) = map (fun ab => (f ab.1, f ab.2)) (all_pairs l).
Proof.
  induction l as [| x l IH]; [done |].
  cbn [map all_pairs]. rewrite map_app, IH. f_equal.
  by rewrite !map_map.
Qed.

End Destinations.

(** X12: the destinations of the rules have no part in the verdict.
    Replacing the destination of every rule of a set in which each rule
    has one, by anything, leaves the outcome of [validate_acl_rules]
    unchanged: the same verdict, or the same exception. *)
Theorem verdict_ignores_destinations `{IPLibrary}
    (current_role : option string) (rules : list rule)
    (g : rule -> value) :
  forallb (fun r => has_key r "destination") rules = true ->
  out (validate_acl_rules current_role (map (with_destination g) rules))
  = out (validate_acl_rules current_role rules).
Proof.
  intros Hd. rewrite forallb_forall in Hd.
  destruct (validate_run current_role (map (with_destination g) rules))
    as [-> _].
  destruct (validate_run current_role rules) as [-> _].
  unfold conflict_loop, conflict_pairs, scanned.
  change scan0 with (rewrite_scan g scan0) at 1 2 3.
  rewrite scanned_with_destination.
  cbn [rewrite_scan valid permit_rules deny_rules].
  rewrite product_map, all_pairs_map.
  fold (both g). change (fun ab : rule * rule =>
            (with_destination g ab.1, with_destination g ab.2))
    with (both g).
  rewrite (flag_loop_with_destination g Conflict Conflict).
  - destruct (out (flag_loop Conflict _ _)) as [v | e]; [| done].
    apply (flag_loop_with_destination g Overlap Overlap).
    apply Forall_forall. intros [x y] Hxy.
    apply elem_of_all_pairs in Hxy as (i & j & _ & Hi & Hj).
    split; apply Hd, list_elem_of_In; eapply list_elem_of_lookup_2; eauto.
  - apply Forall_forall. intros [p d] Hpd.
    apply elem_of_product in Hpd as [Hp Hdd].
    apply elem_of_permit_rules in Hp as (Hp & _).
    apply elem_of_deny_rules in Hdd as (Hdd & _).
    split; by apply Hd, list_elem_of_In.
Qed.

Lemma verdict_ignores_destinations_witness :
  out (validate_acl_rules (Some "read-write")
         (map (with_destination (fun _ => VStr "0.0.0.0"))
              [Samples.permit_a; Samples.deny_in_a]))
  = out (validate_acl_rules (Some "read-write")
           [Samples.permit_a; Samples.deny_in_a]).
Proof.
  apply (verdict_ignores_destinations (H := ipv4_text) (Some "read-write")
           [Samples.permit_a; Samples.deny_in_a] (fun _ => VStr "0.0.0.0")).
  vm_compute. reflexivity.
Defined.

(** ** The applier: rendering *)


Lemma getitem_run {S} (d : gmap string value) k (s : S) :
  getitem d k s = match d !! k with
                  | Some v => (Ret v, s)
                  | None => (Raise (KeyError k), s)
                  end.
Proof. unfold getitem. by destruct (d !! k). Qed.



(** ** The applier: what it calls *)

(** Every call a computation makes satisfies [P]: the trace of calls is
    only extended, by calls that satisfy [P]. *)
Definition appends {A} (P : io_call -> Prop) (m : W A) : Prop :=
  forall w, exists calls,
    w_io (snd (m w)) = w_io w ++ calls /\ Forall P calls.

Section Appends.

Context `{IPLibrary} `{Environment}.

Context (P : io_call -> Prop).

Lemma appends_ret {A} (a : A) : appends P (mret a).
Proof. intros w. exists []. by rewrite app_nil_r. Qed.

Lemma appends_raise {A} e : appends P (raise e : W A).
Proof. intros w. exists []. by rewrite app_nil_r. Qed.

Lemma appends_getitem d k : appends P (getitem d k : W value).
Proof.
  unfold getitem. destruct (d !! k); [apply appends_ret | apply appends_raise].
Qed.

Lemma appends_on_log {A} (m : M A) : appends P (on_log m).
Proof.
  intros w. exists []. unfold on_log. destruct (m (w_log w)).
  by rewrite app_nil_r.
Qed.

Lemma appends_io c : P c -> appends P (io c).
Proof.
  intros Hc w. exists [c]. unfold io.
  destruct (respond (w_io w) c); (split; [done | by constructor]).
Qed.

Lemma appends_bind {A B} (m : W A) (f : A -> W B) :
  appends P m -> (forall a, appends P (f a)) -> appends P (m ≫= f).
Proof.
  intros Hm Hf w. unfold mbind, ST_bind.
  destruct (Hm w) as (c1 & Hc1 & HP1).
  destruct (m w) as [[a | e] w1]; cbn [snd] in *.
  - destruct (Hf a w1) as (c2 & Hc2 & HP2). exists (c1 ++ c2).
    rewrite Hc2, Hc1, app_assoc. split; [done | by apply Forall_app].
  - by exists c1.
Qed.

Lemma appends_try {A} (body handler : W A) :
  appends P body -> appends P handler ->
  appends P (try_except_Exception body handler).
Proof.
  intros Hb Hh w. unfold try_except_Exception.
  destruct (Hb w) as (c1 & Hc1 & HP1).
  destruct (body w) as [[a | e] w1]; cbn [snd] in *.
  - by exists c1.
  - destruct (Hh w1) as (c2 & Hc2 & HP2). exists (c1 ++ c2).
    rewrite Hc2, Hc1, app_assoc. split; [done | by apply Forall_app].
Qed.

Lemma appends_for_each {A B} (body : B -> A -> W B) (l : list A) :
  (forall s x, appends P (body s x)) -> forall s, appends P (for_each body l s).
Proof.
  intros Hbody. induction l as [| x l IH]; intros s; cbn [for_each].
  - apply appends_ret.
  - apply appends_bind; [apply Hbody | apply IH].
Qed.

End Appends.

(** Rendering reads the rules and nothing else: its result does not depend
    on the state it runs in, which it leaves as it is. *)
Lemma build_acl_command_run {S} (r : rule) (s : S) :
  build_acl_command r s = (fst (build_acl_command r tt), s).
Proof.
  unfold build_acl_command, getitem, mbind, ST_bind, mret, ST_ret, raise.
  destruct (r !! "acl_number"), (r !! "action"), (r !! "protocol"),
    (has_key r "port"), (r !! "source"), (r !! "destination"),
    (r !! "port"); reflexivity.
Qed.

Lemma build_commands_run {S} (rules : list rule) (s : S) :
  build_commands rules s = (fst (build_commands rules tt), s).
Proof.
  induction rules as [| r rules IH]; [done |].
  cbn [build_commands]. unfold mbind, ST_bind.
  rewrite (build_acl_command_run r s), (build_acl_command_run r tt).
  cbn [fst].
  destruct (fst (build_acl_command r tt)) as [c | e]; [| done].
  rewrite IH. destruct (build_commands rules tt) as [[cs | e] []]; done.
Qed.

Section ApplierFacts.

Context `{IPLibrary} `{Environment}.

Lemma appends_build_commands P rules :
  appends P (build_commands rules : W (list string)).
Proof.
  intros w. exists []. rewrite build_commands_run. by rewrite app_nil_r.
Qed.

Lemma appends_dry_run_commands commands :
  appends (fun c => exists line, c = Print line) (dry_run_commands commands).
Proof.
  unfold dry_run_commands. apply appends_for_each. intros [] c.
  apply appends_bind; [apply appends_io; eauto | intros; apply appends_ret].
Qed.

Lemma prints_map calls :
  Forall (fun c => exists line, c = Print line) calls ->
  exists lines, calls = map Print lines.
Proof.
  induction 1 as [| c calls [line ->] _ [lines ->]]; [by exists [] |].
  by exists (line :: lines).
Qed.

End ApplierFacts.

(** X15: a dry run contacts no device and writes no file.  Whatever the
    role, the device, the rules and the environment, and whether the call
    returns or raises, all that [configure_acls] with [dry_run=True] does
    outside the log is to print lines. *)
Theorem dry_run_only_prints `{IPLibrary} `{Environment}
    (current_role : option string) (d : device) (rules : list rule)
    (w : world) :
  exists lines,
    w_io (snd (configure_acls current_role d rules true w))
    = w_io w ++ map Print lines.
Proof.
  assert (Happ : appends (fun c => exists line, c = Print line)
                   (configure_acls current_role d rules true)).
  { unfold configure_acls. apply appends_bind; [apply appends_on_log |].
    intros ok. destruct (negb ok); [apply appends_on_log |].
    apply appends_bind; [apply appends_build_commands |].
    intros cmds. apply appends_dry_run_commands. }
  destruct (Happ w) as (calls & -> & Hcalls).
  destruct (prints_map calls Hcalls) as [lines ->]. by exists lines.
Qed.

(** ** The applier on a live device *)

Definition show_command : string :=
  "show running-config | include access-list".

Definition backup_file_name (host : value) : string :=
  ("backup_" ++ str_of_value host ++ "_acl.txt")%string.

Section Live.

Context `{IPLibrary} `{Environment}.

Lemma io_run c w :
  io c w
  = (match respond (w_io w) c with
     | Some out => Ret out
     | None => Raise NetmikoError
     end,
     {| w_log := w_log w; w_io := w_io w ++ [c] |}).
Proof. unfold io. by destruct (respond (w_io w) c). Qed.

Lemma failure_logged (mk : value -> event) d h w :
  d !! "host" = Some h ->
  (host ← getitem d "host"; on_log (logging (mk host))) w
  = (Ret tt, {| w_log := w_log w ++ [mk h]; w_io := w_io w |}).
Proof.
  intros Hh. unfold mbind, ST_bind. by rewrite getitem_run, Hh.
Qed.

Ltac live_step Hh :=
  rewrite ?io_run, ?getitem_run, ?Hh; unfold on_log, logging;
  cbn [w_io w_log fst snd]; rewrite <- ?app_assoc; cbn [app].

(** What the backup can leave behind, by the first call that fails. *)
Lemma backup_current_config_run d h w :
  d !! "host" = Some h ->
  exists calls notes,
    backup_current_config d w
    = (Ret tt, {| w_log := w_log w ++ notes; w_io := w_io w ++ calls |})
    /\ (calls = [ConnectHandler d]
        \/ calls = [ConnectHandler d; Enable]
        \/ calls = [ConnectHandler d; Enable; SendCommand show_command]
        \/ exists content,
             respond (w_io w ++ [ConnectHandler d; Enable])
                     (SendCommand show_command) = Some content
             /\ (calls = [ConnectHandler d; Enable; SendCommand show_command;
                          WriteFile (backup_file_name h) content]
                 \/ calls = [ConnectHandler d; Enable;
                             SendCommand show_command;
                             WriteFile (backup_file_name h) content;
                             Disconnect]))
    /\ (notes = [BackupFailed h] \/ notes = [BackupDone h]
        \/ notes = [BackupDone h; BackupFailed h]).
Proof.
  intros Hh.
  unfold backup_current_config, try_except_Exception.
  fold show_command. unfold mbind at 1, ST_bind at 1. rewrite io_run.
  destruct (respond (w_io w) (ConnectHandler d)) as [o1 |].
  2:{ exists [ConnectHandler d], [BackupFailed h].
      rewrite (failure_logged BackupFailed d h) by done.
      split; [done |]. split; auto 10. }
  unfold mbind at 1, ST_bind at 1. rewrite io_run. cbn [w_io w_log].
  destruct (respond (w_io w ++ [ConnectHandler d]) Enable) as [o2 |].
  2:{ exists [ConnectHandler d; Enable], [BackupFailed h].
      rewrite (failure_logged BackupFailed d h) by done.
      cbn [w_io w_log]. rewrite <- ?app_assoc.
      split; [done |]. split; auto 10. }
  unfold mbind at 1, ST_bind at 1. rewrite io_run. cbn [w_io w_log].
  rewrite <- ?app_assoc. cbn [app].
  destruct (respond (w_io w ++ [ConnectHandler d; Enable])
              (SendCommand show_command)) as [content |] eqn:Hshow.
  2:{ exists [ConnectHandler d; Enable; SendCommand show_command],
        [BackupFailed h].
      rewrite (failure_logged BackupFailed d h) by done.
      cbn [w_io w_log]. rewrite <- ?app_assoc.
      split; [done |]. split; auto 10. }
  unfold mbind at 1, ST_bind at 1. rewrite getitem_run, Hh.
  fold (backup_file_name h).
  unfold mbind at 1, ST_bind at 1. rewrite io_run. cbn [w_io w_log].
  rewrite <- ?app_assoc. cbn [app].
  destruct (respond _ (WriteFile (backup_file_name h) content)) as [o4 |].
  2:{ exists [ConnectHandler d; Enable; SendCommand show_command;
              WriteFile (backup_file_name h) content], [BackupFailed h].
      rewrite (failure_logged BackupFailed d h) by done.
      cbn [w_io w_log]. rewrite <- ?app_assoc.
      split; [done |]. split; [| auto].
      right. right. right. exists content. auto. }
  unfold mbind at 1, ST_bind at 1. rewrite getitem_run, Hh.
  unfold mbind at 1, ST_bind at 1. unfold on_log at 1, logging at 1.
  cbn [w_io w_log].
  unfold mbind at 1, ST_bind at 1. rewrite io_run. cbn [w_io w_log].
  rewrite <- ?app_assoc. cbn [app].
  destruct (respond _ Disconnect) as [o5 |].
  - exists [ConnectHandler d; Enable; SendCommand show_command;
            WriteFile (backup_file_name h) content; Disconnect],
      [BackupDone h].
    split; [done |]. split; [| auto].
    right. right. right. exists content. auto.
  - exists [ConnectHandler d; Enable; SendCommand show_command;
            WriteFile (backup_file_name h) content; Disconnect],
      [BackupDone h; BackupFailed h].
    rewrite (failure_logged BackupFailed d h) by done.
    cbn [w_io w_log]. rewrite <- ?app_assoc.
    split; [done |]. split; [| auto].
    right. right. right. exists content. auto.
Qed.

(** The [try] statement of lines 157 to 169. *)
Definition push (d : device) (rules : list rule) : W unit :=
  try_except_Exception
    (io (ConnectHandler d);;
     io Enable;;
     commands ← build_commands rules;
     output ← io (SendConfigSet commands);
     host ← getitem d "host";
     on_log (logging (ChangesApplied host));;
     on_log (logging (DeviceOutput output));;
     io Disconnect;;
     mret tt)
    (host ← getitem d "host";
     on_log (logging (ConfigureFailed host))).

Lemma configure_acls_live role d rules w :
  fst (validate_acl_rules role rules (w_log w)) = Ret true ->
  configure_acls role d rules false w
  = (backup_current_config d;; push d rules)
      {| w_log := snd (validate_acl_rules role rules (w_log w));
         w_io := w_io w |}.
Proof.
  intros Hv. unfold configure_acls, on_log. unfold mbind at 1, ST_bind at 1.
  destruct (validate_acl_rules role rules (w_log w)) as [r log].
  cbn [fst snd] in *. by subst r.
Qed.

(** What the [try] statement can leave behind, by the first step that
    fails. *)
Lemma push_run d h rules w :
  d !! "host" = Some h ->
  exists calls notes,
    push d rules w
    = (Ret tt, {| w_log := w_log w ++ notes; w_io := w_io w ++ calls |})
    /\ (calls = [ConnectHandler d]
        \/ calls = [ConnectHandler d; Enable]
        \/ exists commands,
             fst (build_commands rules tt) = Ret commands
             /\ (calls = [ConnectHandler d; Enable; SendConfigSet commands]
                 \/ calls = [ConnectHandler d; Enable;
                             SendConfigSet commands; Disconnect]))
    /\ (is_Some (respond (w_io w) (ConnectHandler d)) ->
        is_Some (respond (w_io w ++ [ConnectHandler d]) Enable) ->
        forall commands,
          fst (build_commands rules tt) = Ret commands ->
          SendConfigSet commands ∈ calls).
Proof.
  intros Hh. unfold push, try_except_Exception.
  unfold mbind at 1, ST_bind at 1. rewrite io_run.
  destruct (respond (w_io w) (ConnectHandler d)) as [o1 |].
  2:{ exists [ConnectHandler d], [ConfigureFailed h].
      rewrite (failure_logged ConfigureFailed d h) by done.
      split; [done |]. split; [auto |]. by intros [? ?]. }
  unfold mbind at 1, ST_bind at 1. rewrite io_run. cbn [w_io w_log].
  destruct (respond (w_io w ++ [ConnectHandler d]) Enable) as [o2 |].
  2:{ exists [ConnectHandler d; Enable], [ConfigureFailed h].
      rewrite (failure_logged ConfigureFailed d h) by done.
      cbn [w_io w_log]. rewrite <- ?app_assoc.
      split; [done |]. split; [auto |]. by intros _ [? ?]. }
  unfold mbind at 1, ST_bind at 1. rewrite build_commands_run.
  destruct (fst (build_commands rules tt)) as [commands | e] eqn:Hb.
  2:{ exists [ConnectHandler d; Enable], [ConfigureFailed h].
      rewrite (failure_logged ConfigureFailed d h) by done.
      cbn [w_io w_log]. rewrite <- ?app_assoc.
      split; [done |]. split; [auto |]. done. }
  unfold mbind at 1, ST_bind at 1. rewrite io_run. cbn [w_io w_log].
  rewrite <- ?app_assoc. cbn [app].
  destruct (respond _ (SendConfigSet commands)) as [output |].
  2:{ exists [ConnectHandler d; Enable; SendConfigSet commands],
        [ConfigureFailed h].
      rewrite (failure_logged ConfigureFailed d h) by done.
      cbn [w_io w_log]. rewrite <- ?app_assoc.
      split; [done |]. split; [right; right; exists commands; auto |].
      intros _ _ c Hc. inversion Hc; subst.
      apply list_elem_of_further, list_elem_of_further, list_elem_of_here. }
  unfold mbind at 1, ST_bind at 1. rewrite getitem_run, Hh.
  unfold mbind at 1, ST_bind at 1. unfold on_log at 1, logging at 1.
  cbn [w_io w_log].
  unfold mbind at 1, ST_bind at 1. unfold on_log at 1, logging at 1.
  cbn [w_io w_log].
  unfold mbind at 1, ST_bind at 1. rewrite io_run. cbn [w_io w_log].
  rewrite <- ?app_assoc. cbn [app].
  destruct (respond _ Disconnect) as [o5 |].
  - exists [ConnectHandler d; Enable; SendConfigSet commands; Disconnect],
      [ChangesApplied h; DeviceOutput output].
    split; [done |]. split; [right; right; exists commands; auto |].
    intros _ _ c Hc. inversion Hc; subst.
    apply list_elem_of_further, list_elem_of_further, list_elem_of_here.
  - exists [ConnectHandler d; Enable; SendConfigSet commands; Disconnect],
      [ChangesApplied h; DeviceOutput output; ConfigureFailed h].
    rewrite (failure_logged ConfigureFailed d h) by done.
    cbn [w_io w_log]. rewrite <- ?app_assoc.
    split; [done |]. split; [right; right; exists commands; auto |].
    intros _ _ c Hc. inversion Hc; subst.
    apply list_elem_of_further, list_elem_of_further, list_elem_of_here.
Qed.

End Live.

(** Membership in an explicit list of calls, by cases. *)
Ltac in_calls Hc :=
  repeat (apply elem_of_cons in Hc as [Hc | Hc]; [try discriminate Hc |]);
  try (by apply elem_of_nil in Hc).

Section LiveFacts.

Context `{IPLibrary} `{Environment}.

Lemma backup_current_config_no_host d w :
  d !! "host" = None ->
  exists calls,
    backup_current_config d w
    = (Raise (KeyError "host"),
       {| w_log := w_log w; w_io := w_io w ++ calls |})
    /\ forall commands, SendConfigSet commands ∉ calls.
Proof.
  intros Hh.
  assert (Hfail : forall w',
            (host ← getitem d "host"; on_log (logging (BackupFailed host))) w'
            = (Raise (KeyError "host"), w')).
  { intros w'. unfold mbind, ST_bind. by rewrite getitem_run, Hh. }
  unfold backup_current_config, try_except_Exception.
  fold show_command. unfold mbind at 1, ST_bind at 1. rewrite io_run.
  destruct (respond (w_io w) (ConnectHandler d)) as [o1 |].
  2:{ exists [ConnectHandler d]. rewrite Hfail. split; [done |].
      intros c Hc. apply list_elem_of_singleton in Hc. done. }
  unfold mbind at 1, ST_bind at 1. rewrite io_run. cbn [w_io w_log].
  destruct (respond (w_io w ++ [ConnectHandler d]) Enable) as [o2 |].
  2:{ exists [ConnectHandler d; Enable]. rewrite Hfail.
      rewrite <- ?app_assoc. split; [done |].
      intros c Hc. in_calls Hc. }
  unfold mbind at 1, ST_bind at 1. rewrite io_run. cbn [w_io w_log].
  rewrite <- ?app_assoc. cbn [app].
  exists [ConnectHandler d; Enable; SendCommand show_command].
  destruct (respond _ (SendCommand show_command)) as [content |].
  - unfold mbind at 1, ST_bind at 1. rewrite getitem_run, Hh, Hfail.
    split; [done |]. intros c Hc. in_calls Hc.
  - rewrite Hfail. split; [done |]. intros c Hc. in_calls Hc.
Qed.

Lemma dry_run_commands_run commands : forall w,
  (forall t line, is_Some (respond t (Print line))) ->
  dry_run_commands commands w
  = (Ret tt,
     {| w_log := w_log w;
        w_io := w_io w
                  ++ map (fun c => Print ("Dry Run: " ++ c)%string)
                         commands |}).
Proof.
  unfold dry_run_commands.
  induction commands as [| c commands IH]; intros w Hp.
  - cbn [for_each map]. rewrite app_nil_r. by destruct w.
  - cbn [for_each map]. unfold mbind at 1, ST_bind at 1.
    unfold mbind at 1, ST_bind at 1. rewrite io_run.
    destruct (Hp (w_io w) ("Dry Run: " ++ c)%string) as [o ->].
    cbn [mret ST_ret]. rewrite IH by done. cbn [w_io w_log].
    by rewrite <- app_assoc.
Qed.


End LiveFacts.

(** X16: with a [host] key in the device, [backup_current_config] always
    returns normally, whatever fails on the way; it never sends
    configuration commands; and the one file it may write is
    [backup_<host>_acl.txt], holding what the device answered to the [show]
    command. *)
Theorem backup_contained `{IPLibrary} `{Environment} (d : device)
    (h : value) (w : world) :
  d !! "host" = Some h ->
  exists calls,
    fst (backup_current_config d w) = Ret tt
    /\ w_io (snd (backup_current_config d w)) = w_io w ++ calls
    /\ (forall commands, SendConfigSet commands ∉ calls)
    /\ (forall name content,
          WriteFile name content ∈ calls ->
          name = backup_file_name h
          /\ respond (w_io w ++ [ConnectHandler d; Enable])
                     (SendCommand show_command) = Some content).
Proof.
  intros Hh.
  destruct (backup_current_config_run d h w Hh)
    as (calls & notes & -> & Hcalls & _).
  exists calls. split; [done |]. split; [done |].
  destruct Hcalls
    as [-> | [-> | [-> | (content & Hshow & [-> | ->])]]];
    (split; [intros c Hc; in_calls Hc |]);
    intros name content' Hin; in_calls Hin;
    injection Hin as -> ->; by split.
Qed.

Lemma backup_contained_witness :
  exists calls,
    fst (backup_current_config (H0 := Samples.quiet) Samples.router
           {| w_log := []; w_io := [] |}) = Ret tt
    /\ w_io (snd (backup_current_config (H0 := Samples.quiet) Samples.router
                    {| w_log := []; w_io := [] |})) = [] ++ calls
    /\ (forall commands, SendConfigSet commands ∉ calls)
    /\ (forall name content,
          WriteFile name content ∈ calls ->
          name = backup_file_name (VStr "192.0.2.1")
          /\ respond (Environment := Samples.quiet)
               ([] ++ [ConnectHandler Samples.router; Enable])
               (SendCommand show_command) = Some content).
Proof.
  apply (backup_contained (H := ipv4_text) (H0 := Samples.quiet)
           Samples.router (VStr "192.0.2.1") {| w_log := []; w_io := [] |}).
  vm_compute. reflexivity.
Defined.

Section LiveRuns.

Context `{IPLibrary} `{Environment}.

Lemma configure_acls_stops role d rules dry_run w :
  fst (validate_acl_rules role rules (w_log w)) <> Ret true ->
  exists r notes,
    configure_acls role d rules dry_run w
    = (r, {| w_log := snd (validate_acl_rules role rules (w_log w)) ++ notes;
             w_io := w_io w |})
    /\ (r = Ret tt /\ notes = [ValidationFailed]
        \/ exists e,
             fst (validate_acl_rules role rules (w_log w)) = Raise e
             /\ r = Raise e /\ notes = []).
Proof.
  intros Hv. unfold configure_acls, on_log. unfold mbind at 1, ST_bind at 1.
  destruct (validate_acl_rules role rules (w_log w)) as [[[|] | e] log];
    cbn [fst snd negb] in *; [done | |].
  - exists (Ret tt), [ValidationFailed]. split; [| by left].
    unfold logging. by cbn [w_log w_io].
  - exists (Raise e), []. rewrite app_nil_r. split; [done |].
    right. by exists e.
Qed.

Lemma backup_connect_fails d h w :
  d !! "host" = Some h ->
  respond (w_io w) (ConnectHandler d) = None ->
  backup_current_config d w
  = (Ret tt, {| w_log := w_log w ++ [BackupFailed h];
                w_io := w_io w ++ [ConnectHandler d] |}).
Proof.
  intros Hh Hc. unfold backup_current_config, try_except_Exception.
  unfold mbind at 1, ST_bind at 1. rewrite io_run, Hc.
  by rewrite (failure_logged BackupFailed d h).
Qed.

End LiveRuns.

(** X17: a live run does not raise on a device failure.  Once validation
    returns (it may raise, see C1 and C6) and the device has a [host] key,
    [configure_acls] with [dry_run=False] returns normally, whatever the
    device answers or fails to answer: both [try] statements catch
    everything. *)
Theorem live_run_returns `{IPLibrary} `{Environment} (role : option string)
    (d : device) (h : value) (rules : list rule) (b : bool) (w : world) :
  fst (validate_acl_rules role rules (w_log w)) = Ret b ->
  d !! "host" = Some h ->
  fst (configure_acls role d rules false w) = Ret tt.
Proof.
  intros Hv Hh. destruct b.
  - rewrite configure_acls_live by done.
    unfold mbind at 1, ST_bind at 1.
    destruct (backup_current_config_run d h
                {| w_log := snd (validate_acl_rules role rules (w_log w));
                   w_io := w_io w |} Hh) as (bc & bn & -> & _).
    destruct (push_run d h rules
                {| w_log := snd (validate_acl_rules role rules (w_log w))
                            ++ bn;
                   w_io := w_io w ++ bc |} Hh) as (pc & pn & Hp & _).
    cbn [w_log w_io] in *. by rewrite Hp.
  - destruct (configure_acls_stops role d rules false w)
      as (r & notes & -> & [[-> _] | (e & He & _)]); [congruence | done |].
    congruence.
Qed.

Lemma live_run_returns_witness :
  fst (configure_acls (H := ipv4_text) (H0 := Samples.quiet)
         (Some "read-write") Samples.router
         [Samples.permit_a; Samples.deny_c] false
         {| w_log := []; w_io := [] |}) = Ret tt.
Proof.
  apply (live_run_returns (H := ipv4_text) (H0 := Samples.quiet)
           (Some "read-write") Samples.router (VStr "192.0.2.1")
           [Samples.permit_a; Samples.deny_c] true
           {| w_log := []; w_io := [] |});
    vm_compute; reflexivity.
Defined.

(** X18: configuration commands reach a device only after validation and
    only as rendered.  Whatever the role, the device, the rules, the mode
    and the environment, if the calls that [configure_acls] adds contain
    [send_config_set(commands)], then the call was live, validation
    returned [True], and [commands] is the rendering of all the rules, in
    order. *)
Theorem sent_commands_are_validated `{IPLibrary} `{Environment}
    (role : option string) (d : device) (rules : list rule)
    (dry_run : bool) (w : world) :
  exists calls,
    w_io (snd (configure_acls role d rules dry_run w)) = w_io w ++ calls
    /\ forall commands,
         SendConfigSet commands ∈ calls ->
         dry_run = false
         /\ fst (validate_acl_rules role rules (w_log w)) = Ret true
         /\ fst (build_commands rules tt) = Ret commands.
Proof.
  destruct (decide (fst (validate_acl_rules role rules (w_log w)) = Ret true))
    as [Hv | Hv].
  2:{ destruct (configure_acls_stops role d rules dry_run w Hv)
        as (r & notes & -> & _).
      exists []. rewrite app_nil_r. split; [done |].
      by intros c Hc%elem_of_nil. }
  destruct dry_run.
  { assert (Happ : appends (fun c => exists line, c = Print line)
                     (configure_acls role d rules true)).
    { unfold configure_acls. apply appends_bind; [apply appends_on_log |].
      intros ok. destruct (negb ok); [apply appends_on_log |].
      apply appends_bind; [apply appends_build_commands |].
      intros cmds. apply appends_dry_run_commands. }
    destruct (Happ w) as (calls & -> & Hcalls). exists calls.
    split; [done |]. intros c Hc.
    rewrite Forall_forall in Hcalls. by destruct (Hcalls _ Hc). }
  rewrite configure_acls_live by done. unfold mbind at 1, ST_bind at 1.
  set (w1 := {| w_log := snd (validate_acl_rules role rules (w_log w));
                w_io := w_io w |}).
  destruct (d !! "host") as [h |] eqn:Hh.
  - destruct (backup_current_config_run d h w1 Hh)
      as (bc & bn & -> & Hbc & _).
    destruct (push_run d h rules
                {| w_log := w_log w1 ++ bn; w_io := w_io w1 ++ bc |} Hh)
      as (pc & pn & -> & Hpc & _).
    cbn [snd w_io w1]. exists (bc ++ pc). split; [by rewrite app_assoc |].
    intros c Hc. split; [done |]. split; [done |].
    apply elem_of_app in Hc as [Hc | Hc].
    + exfalso.
      destruct Hbc as [-> | [-> | [-> | (content & _ & [-> | ->])]]];
        in_calls Hc.
    + destruct Hpc as [-> | [-> | (commands & Hb & [-> | ->])]];
        in_calls Hc; by injection Hc as ->.
  - destruct (backup_current_config_no_host d w1 Hh) as (bc & -> & Hbc).
    cbn [snd w_io w1]. exists bc. split; [done |].
    intros c Hc. by destruct (Hbc c).
Qed.

(** An environment in which the first call fails and every later one
    succeeds with empty output. *)
Definition first_call_fails : Environment :=
  {| respond := fun trace _ =>
                  match trace with [] => None | _ => Some "" end |}.

(** X19: a failed backup does not stop the configuration.  When the
    connection for the backup fails, [backup_current_config] logs the
    failure and returns, and [configure_acls] goes on to connect again: if
    that connection and [enable] succeed and the rules render, the commands
    are sent although no backup file was written. *)
Theorem failed_backup_does_not_stop_push `{IPLibrary} `{Environment}
    (role : option string) (d : device) (h : value) (rules : list rule)
    (commands : list string) (w : world) :
  fst (validate_acl_rules role rules (w_log w)) = Ret true ->
  d !! "host" = Some h ->
  fst (build_commands rules tt) = Ret commands ->
  respond (w_io w) (ConnectHandler d) = None ->
  is_Some (respond (w_io w ++ [ConnectHandler d]) (ConnectHandler d)) ->
  is_Some (respond (w_io w ++ [ConnectHandler d; ConnectHandler d]) Enable) ->
  exists calls,
    w_io (snd (configure_acls role d rules false w)) = w_io w ++ calls
    /\ SendConfigSet commands ∈ calls
    /\ (forall name content, WriteFile name content ∉ calls)
    /\ BackupFailed h ∈ w_log (snd (configure_acls role d rules false w)).
Proof.
  intros Hv Hh Hb Hc1 Hc2 He.
  destruct (push_run d h rules
              {| w_log := snd (validate_acl_rules role rules (w_log w))
                          ++ [BackupFailed h];
                 w_io := w_io w ++ [ConnectHandler d] |} Hh)
    as (pc & pn & Hp & Hpc & Hsent).
  cbn [w_log w_io] in *.
  assert (Hrun : configure_acls role d rules false w
                 = (Ret tt,
                    {| w_log := (snd (validate_acl_rules role rules (w_log w))
                                 ++ [BackupFailed h]) ++ pn;
                       w_io := (w_io w ++ [ConnectHandler d]) ++ pc |})).
  { rewrite configure_acls_live by done. unfold mbind at 1, ST_bind at 1.
    by rewrite (backup_connect_fails d h). }
  rewrite Hrun. cbn [snd w_log w_io].
  exists (ConnectHandler d :: pc). split; [by rewrite <- app_assoc |].
  split.
  { apply list_elem_of_further, Hsent; [done | | done].
    by rewrite <- app_assoc. }
  split.
  - intros name content Hin.
    apply elem_of_cons in Hin as [Hin | Hin]; [discriminate Hin |].
    destruct Hpc as [-> | [-> | (cs & _ & [-> | ->])]]; in_calls Hin.
  - apply elem_of_app. left. apply elem_of_app. right.
    apply list_elem_of_here.
Qed.

Lemma failed_backup_does_not_stop_push_witness :
  exists calls,
    w_io (snd (configure_acls (H := ipv4_text) (H0 := first_call_fails)
                 (Some "read-write") Samples.router
                 [Samples.permit_a; Samples.deny_c] false
                 {| w_log := []; w_io := [] |})) = [] ++ calls
    /\ SendConfigSet
         ["access-list 1 permit tcp 10.0.0.1/32 8.8.8.8";
          "access-list 3 deny tcp 10.0.1.0/24 9.9.9.9"] ∈ calls
    /\ (forall name content, WriteFile name content ∉ calls)
    /\ BackupFailed (VStr "192.0.2.1")
         ∈ w_log (snd (configure_acls (H := ipv4_text)
                         (H0 := first_call_fails)
                         (Some "read-write") Samples.router
                         [Samples.permit_a; Samples.deny_c] false
                         {| w_log := []; w_io := [] |})).
Proof.
  apply (failed_backup_does_not_stop_push (H := ipv4_text)
           (H0 := first_call_fails) (Some "read-write") Samples.router
           (VStr "192.0.2.1") [Samples.permit_a; Samples.deny_c]
           ["access-list 1 permit tcp 10.0.0.1/32 8.8.8.8";
            "access-list 3 deny tcp 10.0.1.0/24 9.9.9.9"]
           {| w_log := []; w_io := [] |});
    try (vm_compute; reflexivity); vm_compute; eauto.
Defined.

Section Rendering.

Context `{IPLibrary} `{Environment}.



Lemma configure_acls_dry role d rules w :
  fst (validate_acl_rules role rules (w_log w)) = Ret true ->
  configure_acls role d rules true w
  = (commands ← build_commands rules; dry_run_commands commands)
      {| w_log := snd (validate_acl_rules role rules (w_log w));
         w_io := w_io w |}.
Proof.
  intros Hv. unfold configure_acls, on_log. unfold mbind at 1, ST_bind at 1.
  destruct (validate_acl_rules role rules (w_log w)) as [r log].
  cbn [fst snd] in *. by subst r.
Qed.

End Rendering.



(** X21: what a dry run prints.  When validation returns [True], the rules
    render to [commands] and printing does not fail, [configure_acls] with
    [dry_run=True] returns after printing exactly the lines
    [Dry Run: <command>], one per rule and in the order of the rules. *)
Theorem dry_run_prints_commands `{IPLibrary} `{Environment}
    (role : option string) (d : device) (rules : list rule)
    (commands : list string) (w : world) :
  fst (validate_acl_rules role rules (w_log w)) = Ret true ->
  fst (build_commands rules tt) = Ret commands ->
  (forall trace line, is_Some (respond trace (Print line))) ->
  configure_acls role d rules true w
  = (Ret tt,
     {| w_log := snd (validate_acl_rules role rules (w_log w));
        w_io := w_io w
                  ++ map (fun c => Print ("Dry Run: " ++ c)%string)
                         commands |}).
Proof.
  intros Hv Hb Hp. rewrite configure_acls_dry by done.
  unfold mbind, ST_bind. rewrite build_commands_run, Hb.
  by rewrite dry_run_commands_run.
Qed.

Lemma dry_run_prints_commands_witness :
  configure_acls (H := ipv4_text) (H0 := Samples.quiet)
    (Some "read-write") Samples.router
    [Samples.permit_a; Samples.deny_c] true {| w_log := []; w_io := [] |}
  = (Ret tt,
     {| w_log :=
          snd (validate_acl_rules (H := ipv4_text) (Some "read-write")
                 [Samples.permit_a; Samples.deny_c] []);
        w_io :=
          [] ++ map (fun c => Print ("Dry Run: " ++ c)%string)
                    ["access-list 1 permit tcp 10.0.0.1/32 8.8.8.8";
                     "access-list 3 deny tcp 10.0.1.0/24 9.9.9.9"] |}).
Proof.
  apply (dry_run_prints_commands (H := ipv4_text) (H0 := Samples.quiet)
           (Some "read-write") Samples.router
           [Samples.permit_a; Samples.deny_c]
           ["access-list 1 permit tcp 10.0.0.1/32 8.8.8.8";
            "access-list 3 deny tcp 10.0.1.0/24 9.9.9.9"]
           {| w_log := []; w_io := [] |});
    [vm_compute; reflexivity | vm_compute; reflexivity
    | intros trace line; vm_compute; eauto].
Defined.


(** ** The applier and the log

    The functions of the applier append to the log and never read it: a run
    on a log is the run on the empty log, with its lines put after those that
    were there ([framed]). *)

Definition framed {A} (m : W A) : Prop :=
  forall w,
    m w = (fst (m {| w_log := []; w_io := w_io w |}),
           {| w_log := w_log w
                       ++ w_log (snd (m {| w_log := []; w_io := w_io w |}));
              w_io := w_io (snd (m {| w_log := []; w_io := w_io w |})) |}).

Section Framed.

Context `{IPLibrary} `{Environment}.

Lemma framed_ret {A} (a : A) : framed (mret a : W A).
Proof. intros [log t]. cbn. by rewrite app_nil_r. Qed.

Lemma framed_raise {A} e : framed (raise e : W A).
Proof. intros [log t]. cbn. by rewrite app_nil_r. Qed.

Lemma framed_getitem d k : framed (getitem d k : W value).
Proof.
  unfold getitem. destruct (d !! k); [apply framed_ret | apply framed_raise].
Qed.

Lemma framed_io c : framed (io c).
Proof.
  intros [log t]. unfold io. cbn [w_io w_log].
  destruct (respond t c); cbn; by rewrite app_nil_r.
Qed.

Lemma framed_on_log {A} (m : M A) : uniform m -> framed (on_log m).
Proof.
  intros Hm [log t]. unfold on_log. cbn [w_io w_log].
  rewrite (Hm log), (Hm []). done.
Qed.

Lemma framed_bind {A B} (m : W A) (f : A -> W B) :
  framed m -> (forall a, framed (f a)) -> framed (m ≫= f).
Proof.
  intros Hm Hf w. unfold mbind, ST_bind. rewrite (Hm w).
  destruct (m {| w_log := []; w_io := w_io w |}) as [[a | e] w1];
    cbn [fst snd]; [| done].
  rewrite (Hf a {| w_log := w_log w ++ w_log w1; w_io := w_io w1 |}).
  rewrite (Hf a w1). cbn [fst snd w_log w_io]. by rewrite app_assoc.
Qed.

Lemma framed_try {A} (body handler : W A) :
  framed body -> framed handler ->
  framed (try_except_Exception body handler).
Proof.
  intros Hb Hh w. unfold try_except_Exception. rewrite (Hb w).
  destruct (body {| w_log := []; w_io := w_io w |}) as [[a | e] w1];
    cbn [fst snd]; [done |].
  rewrite (Hh {| w_log := w_log w ++ w_log w1; w_io := w_io w1 |}).
  rewrite (Hh w1). cbn [fst snd w_log w_io]. by rewrite app_assoc.
Qed.

Lemma framed_for_each {A B} (body : B -> A -> W B) (l : list A) :
  (forall s x, framed (body s x)) -> forall s, framed (for_each body l s).
Proof.
  intros Hbody. induction l as [| x l IH]; intros s; cbn [for_each].
  - apply framed_ret.
  - apply framed_bind; [apply Hbody | apply IH].
Qed.

Lemma framed_build_commands rules :
  framed (build_commands rules : W (list string)).
Proof.
  intros [log t]. cbn [w_io w_log].
  rewrite (build_commands_run rules {| w_log := log; w_io := t |}),
    (build_commands_run rules {| w_log := []; w_io := t |}).
  cbn [fst snd w_io w_log]. by rewrite app_nil_r.
Qed.

Ltac framed_step :=
  lazymatch goal with
  | |- framed (mret _) => apply framed_ret
  | |- framed (io _) => apply framed_io
  | |- framed (getitem _ _) => apply framed_getitem
  | |- framed (build_commands _) => apply framed_build_commands
  | |- framed (on_log (logging _)) => apply framed_on_log, uniform_logging
  | |- framed (_ ≫= _) => apply framed_bind
  | |- forall _, _ => intros ?
  end.

Lemma framed_backup_current_config d : framed (backup_current_config d).
Proof.
  unfold backup_current_config.
  apply framed_try; repeat framed_step.
Qed.

Lemma framed_configure_acls role d rules dry_run :
  framed (configure_acls role d rules dry_run).
Proof.
  unfold configure_acls.
  apply framed_bind; [apply framed_on_log, uniform_validate |].
  intros ok. destruct (negb ok); [apply framed_on_log, uniform_logging |].
  destruct dry_run.
  - apply framed_bind; [apply framed_build_commands |]. intros commands.
    unfold dry_run_commands. apply framed_for_each. intros [] c.
    apply framed_bind; [apply framed_io | intros; apply framed_ret].
  - apply framed_bind; [apply framed_backup_current_config |]. intros _.
    apply framed_try; repeat framed_step.
Qed.

End Framed.

(** X23: the applier never reads the log and never removes a line from it.
    A call of [configure_acls] on a log does what it does on the empty log:
    the same outcome, the same calls, and the same lines, put after those
    that were there. *)
Theorem configure_acls_only_appends_to_log `{IPLibrary} `{Environment}
    (role : option string) (d : device) (rules : list rule)
    (dry_run : bool) (log : list event) (trace : list io_call) :
  exists r lines calls,
    configure_acls role d rules dry_run {| w_log := []; w_io := trace |}
    = (r, {| w_log := lines; w_io := calls |})
    /\ configure_acls role d rules dry_run {| w_log := log; w_io := trace |}
       = (r, {| w_log := log ++ lines; w_io := calls |}).
Proof.
  rewrite (framed_configure_acls role d rules dry_run
             {| w_log := log; w_io := trace |}).
  cbn [w_log w_io].
  destruct (configure_acls role d rules dry_run
              {| w_log := []; w_io := trace |}) as [r [lines calls]].
  by exists r, lines, calls.
Qed.

(** * The program around the applier

    [authenticate_user], [load_json_data],
    [configure_acls_on_multiple_devices] and the script's entry point (lines
    25 to 50 and 171 to 185).  These functions log lines of their own, and
    two of them leave through [exit()]: a process has its own log, and its
    computations end in an [outcome].  What [input], [getpass] and
    [json.load] give is the [Console]'s; a file that loads holds a list of
    flat objects, as the rules and the devices above are.  The calls of a
    process are those of the applier: the prompts of [input] and [getpass]
    are not recorded. *)

Module Program.

Inductive line :=
  | Of (e : event)                        (* a line of the functions above *)
  | Authenticated (username : string)     (* line 35 *)
  | AuthenticationFailed                  (* line 37 *)
  | FileNotFound (file_path : string)     (* line 47 *)
  | DecodeError (file_path : string)      (* line 50 *)
  | Configuring (host : value).           (* line 174 *)

Inductive outcome (A : Type) :=
  | Returns (a : A)
  | Raises (e : exn)
  | Exits.                                (* [exit()] *)

Arguments Returns {A} a.
Arguments Raises {A} e.
Arguments Exits {A}.

(** What [open] and [json.load] find at a path. *)
Inductive file :=
  | Missing                               (* [FileNotFoundError] *)
  | Malformed                             (* [json.JSONDecodeError] *)
  | Holds (items : list (gmap string value)).

Class Console := {
  input : string -> string;
  getpass : string -> string;
  json_load : string -> file }.

(** The log, the calls made, and the two globals of lines 21 and 22. *)
Record process := {
  log : list line;
  calls : list io_call;
  current_user : option string;
  current_role : option string }.

Definition P (A : Type) : Type := process -> outcome A * process.

#[global] Instance P_ret : MRet P := fun A a p => (Returns a, p).

#[global] Instance P_bind : MBind P := fun A B f m p =>
  match m p with
  | (Returns a, p') => f a p'
  | (Raises e, p') => (Raises e, p')
  | (Exits, p') => (Exits, p')
  end.

Definition logging (l : line) : P unit := fun p =>
  (Returns tt,
   {| log := log p ++ [l]; calls := calls p;
      current_user := current_user p; current_role := current_role p |}).

Definition exit {A} : P A := fun p => (Exits, p).

Definition getitem (d : gmap string value) (k : string) : P value := fun p =>
  match d !! k with
  | Some v => (Returns v, p)
  | None => (Raises (KeyError k), p)
  end.

Fixpoint for_each {A} (body : A -> P unit) (l : list A) : P unit :=
  match l with
  | [] => mret tt
  | x :: l' => body x;; for_each body l'
  end.

Definition lift {A} (r : res A) : outcome A :=
  match r with Ret a => Returns a | Raise e => Raises e end.

(** A call of a function of the applier.  It reads no line of the log (see
    [framed]): it runs on the empty log, and its lines are put after those
    of the process. *)
Definition applier {A} (m : W A) : P A := fun p =>
  let '(r, w) := m {| w_log := []; w_io := calls p |} in
  (lift r,
   {| log := log p ++ map Of (w_log w); calls := w_io w;
      current_user := current_user p; current_role := current_role p |}).

Definition USER_ROLES : gmap string string :=
  list_to_map [("admin", "read-write"); ("user", "read-only")].

Section Program.

Context `{IPLibrary} `{Environment} `{Console}.

(** [authenticate_user] (lines 25 to 38) *)
Definition authenticate_user : P unit := fun p =>
  let username := input "Enter username: " in
  let password := getpass "Enter password: " in
  match USER_ROLES !! username with
  | Some role =>
      logging (Authenticated username)
        {| log := log p; calls := calls p;
           current_user := Some username; current_role := Some role |}
  | None => (logging AuthenticationFailed;; exit) p
  end.

(** [load_json_data] (lines 40 to 50) *)
Definition load_json_data (file_path : string)
  : P (list (gmap string value)) :=
  match json_load file_path with
  | Holds items => mret items
  | Missing => logging (FileNotFound file_path);; exit
  | Malformed => logging (DecodeError file_path);; exit
  end.

(** [configure_acls_on_multiple_devices] (lines 171 to 175);
    [configure_acls] reads the global [current_role] when it is called. *)
Definition configure_acls_on_multiple_devices (devices : list device)
    (rules : list rule) (dry_run : bool) : P unit :=
  for_each (fun d =>
              host ← getitem d "host";
              logging (Configuring host);;
              ((fun p =>
                  applier (configure_acls (current_role p) d rules dry_run) p)
               : P unit))
           devices.

(** The script (lines 177 to 185) *)
Definition main : P unit :=
  authenticate_user;;
  devices ← load_json_data "devices.json";
  acl_rules ← load_json_data "acl_rules.json";
  configure_acls_on_multiple_devices devices acl_rules true.

End Program.

End Program.

(** ** One device, then the others *)

Section ProgramFacts.

Context `{IPLibrary} `{Environment}.

Lemma multiple_devices_one d rules dry_run p :
  Program.configure_acls_on_multiple_devices [d] rules dry_run p
  = match d !! "host" with
    | None => (Program.Raises (KeyError "host"), p)
    | Some h =>
        (Program.lift
           (fst (configure_acls (Program.current_role p) d rules dry_run
                   {| w_log := []; w_io := Program.calls p |})),
         {| Program.log :=
              (Program.log p ++ [Program.Configuring h])
                ++ map Program.Of
                     (w_log (snd (configure_acls (Program.current_role p) d
                                    rules dry_run
                                    {| w_log := [];
                                       w_io := Program.calls p |})));
            Program.calls :=
              w_io (snd (configure_acls (Program.current_role p) d rules
                           dry_run
                           {| w_log := []; w_io := Program.calls p |}));
            Program.current_user := Program.current_user p;
            Program.current_role := Program.current_role p |})
    end.
Proof.
  unfold Program.configure_acls_on_multiple_devices.
  cbn [Program.for_each]. unfold mbind, Program.P_bind, Program.getitem.
  destruct (d !! "host") as [h |]; [| done].
  unfold Program.logging, Program.applier.
  cbn [Program.log Program.calls Program.current_user Program.current_role].
  destruct (configure_acls (Program.current_role p) d rules dry_run
              {| w_log := []; w_io := Program.calls p |}) as [[[] | e] w];
    reflexivity.
Qed.

Lemma program_for_each_cons {A} (body : A -> Program.P unit) x l p :
  Program.for_each body (x :: l) p
  = (Program.for_each body [x];; Program.for_each body l) p.
Proof.
  cbn [Program.for_each]. unfold mbind, Program.P_bind.
  destruct (body x p) as [[[] | e |] p']; reflexivity.
Qed.

Lemma multiple_devices_cons d devices rules dry_run p :
  Program.configure_acls_on_multiple_devices (d :: devices) rules dry_run p
  = (Program.configure_acls_on_multiple_devices [d] rules dry_run;;
     Program.configure_acls_on_multiple_devices devices rules dry_run) p.
Proof. apply program_for_each_cons. Qed.

Lemma multiple_devices_app pre post rules dry_run : forall p,
  Program.configure_acls_on_multiple_devices (pre ++ post) rules dry_run p
  = (Program.configure_acls_on_multiple_devices pre rules dry_run;;
     Program.configure_acls_on_multiple_devices post rules dry_run) p.
Proof.
  induction pre as [| d pre IH]; intros p; [done |].
  rewrite <- app_comm_cons, multiple_devices_cons.
  unfold mbind, Program.P_bind. rewrite (multiple_devices_cons d pre rules dry_run p).
  unfold mbind, Program.P_bind.
  destruct (Program.configure_acls_on_multiple_devices [d] rules dry_run p)
    as [[[] | e |] p1]; [| done | done].
  rewrite IH. reflexivity.
Qed.

End ProgramFacts.

(** X24: authentication goes by the name alone.  The password that
    [getpass] returns is never looked at: whatever it is, [admin] is given
    the role [read-write], [user] the role [read-only], and any other name
    logs a failure and leaves through [exit()] with the two globals as they
    were. *)
Theorem authentication_by_name_alone (name password : string -> string) (files : string -> Program.file)
    (p : Program.process) :
  Program.authenticate_user
    (H1 := {| Program.input := name; Program.getpass := password;
              Program.json_load := files |}) p
  = if decide (name "Enter username: " = "admin") then
      (Program.Returns tt,
       {| Program.log := Program.log p ++ [Program.Authenticated "admin"];
          Program.calls := Program.calls p;
          Program.current_user := Some "admin";
          Program.current_role := Some "read-write" |})
    else if decide (name "Enter username: " = "user") then
      (Program.Returns tt,
       {| Program.log := Program.log p ++ [Program.Authenticated "user"];
          Program.calls := Program.calls p;
          Program.current_user := Some "user";
          Program.current_role := Some "read-only" |})
    else
      (Program.Exits,
       {| Program.log := Program.log p ++ [Program.AuthenticationFailed];
          Program.calls := Program.calls p;
          Program.current_user := Program.current_user p;
          Program.current_role := Program.current_role p |}).
Proof.
  unfold Program.authenticate_user. cbn [Program.input].
  destruct (decide (name "Enter username: " = "admin")) as [-> | Ha];
    [reflexivity |].
  destruct (decide (name "Enter username: " = "user")) as [-> | Hu];
    [reflexivity |].
  unfold Program.USER_ROLES. cbn [list_to_map foldr uncurry fst snd].
  rewrite lookup_insert_ne by done. rewrite lookup_insert_ne by done.
  rewrite lookup_empty. reflexivity.
Qed.

(** X27: the loop over the devices stops at the first device without a
    [host] key.  When the devices before it are gone through normally, the
    call raises [KeyError] there, in the state those devices left: nothing
    is logged or done for the device, and the devices after it are not
    visited. *)
Theorem loop_stops_at_device_without_host `{IPLibrary} `{Environment}
    (pre post : list device) (d : device) (rules : list rule)
    (dry_run : bool) (p p' : Program.process) :
  Program.configure_acls_on_multiple_devices pre rules dry_run p
  = (Program.Returns tt, p') ->
  d !! "host" = None ->
  Program.configure_acls_on_multiple_devices (pre ++ d :: post) rules
    dry_run p
  = (Program.Raises (KeyError "host"), p').
Proof.
  intros Hpre Hd. rewrite multiple_devices_app.
  unfold mbind, Program.P_bind. rewrite Hpre.
  rewrite multiple_devices_cons. unfold mbind, Program.P_bind.
  by rewrite multiple_devices_one, Hd.
Qed.

Lemma loop_stops_at_device_without_host_witness :
  exists p',
    Program.configure_acls_on_multiple_devices (H := ipv4_text)
      (H0 := Samples.quiet)
      ([Samples.router] ++ Samples.dict [("device_type", VStr "cisco_ios")]
                        :: [Samples.router])
      [Samples.permit_a; Samples.deny_c] false
      {| Program.log := []; Program.calls := [];
         Program.current_user := Some "admin";
         Program.current_role := Some "read-write" |}
    = (Program.Raises (KeyError "host"), p')
    /\ SendConfigSet ["access-list 1 permit tcp 10.0.0.1/32 8.8.8.8";
                      "access-list 3 deny tcp 10.0.1.0/24 9.9.9.9"]
       ∈ Program.calls p'.
Proof.
  eexists. split.
  - apply (loop_stops_at_device_without_host (H := ipv4_text)
             (H0 := Samples.quiet) [Samples.router] [Samples.router]
             (Samples.dict [("device_type", VStr "cisco_ios")])
             [Samples.permit_a; Samples.deny_c] false);
      [vm_compute; reflexivity | vm_compute; reflexivity].
  - cbn [Program.calls]. do 7 apply list_elem_of_further.
    apply list_elem_of_here.
Defined.

(** X28: validation is run again for every device, and a rejected rule set
    contacts none.  When the rules are rejected under the current role and
    every device has a [host] key, the loop returns normally; for each
    device, in order, it logs the device, the findings of the validation
    and the abort; and it makes no call at all, in either mode. *)
Theorem rejected_rules_contact_no_device `{IPLibrary} `{Environment}
    (devices : list device) (rules : list rule) (dry_run : bool)
    (p : Program.process) :
  out (validate_acl_rules (Program.current_role p) rules) = Ret false ->
  Forall (fun d => is_Some (d !! "host")) devices ->
  Program.configure_acls_on_multiple_devices devices rules dry_run p
  = (Program.Returns tt,
     {| Program.log :=
          Program.log p
            ++ flat_map
                 (fun d =>
                    Program.Configuring (default (VStr "") (d !! "host"))
                      :: map Program.Of
                           (evs (validate_acl_rules
                                   (Program.current_role p) rules)
                              ++ [ValidationFailed]))
                 devices;
        Program.calls := Program.calls p;
        Program.current_user := Program.current_user p;
        Program.current_role := Program.current_role p |}).
Proof.
  revert p. induction devices as [| d devices IH]; intros p Hv Hhosts.
  { cbn [flat_map]. rewrite app_nil_r. by destruct p. }
  apply Forall_cons in Hhosts as [[h Hh] Hhosts].
  rewrite multiple_devices_cons. unfold mbind, Program.P_bind.
  rewrite multiple_devices_one, Hh.
  destruct (configure_acls_stops (Program.current_role p) d rules dry_run
              {| w_log := []; w_io := Program.calls p |})
    as (r & notes & -> & [[-> ->] | (e & He & _)]).
  { cbn [w_log]. fold (out (validate_acl_rules (Program.current_role p) rules)).
    by rewrite Hv. }
  2:{ cbn [w_log] in He.
      fold (out (validate_acl_rules (Program.current_role p) rules)) in He.
      congruence. }
  cbn [fst snd w_log w_io Program.lift].
  fold (evs (validate_acl_rules (Program.current_role p) rules)).
  rewrite IH by done.
  cbn [Program.log Program.calls Program.current_user Program.current_role
       flat_map default].
  rewrite Hh. cbn [default]. do 2 f_equal.
  by rewrite <- !app_assoc.
Qed.

Lemma rejected_rules_contact_no_device_witness :
  Program.configure_acls_on_multiple_devices (H := ipv4_text)
    (H0 := Samples.quiet) [Samples.router; Samples.router]
    [Samples.permit_a; Samples.deny_in_a] false
    {| Program.log := []; Program.calls := [];
       Program.current_user := Some "admin";
       Program.current_role := Some "read-write" |}
  = (Program.Returns tt,
     {| Program.log :=
          [] ++ flat_map
                  (fun d =>
                     Program.Configuring (default (VStr "") (d !! "host"))
                       :: map Program.Of
                            (evs (validate_acl_rules (H := ipv4_text)
                                    (Some "read-write")
                                    [Samples.permit_a; Samples.deny_in_a])
                               ++ [ValidationFailed]))
                  [Samples.router; Samples.router];
        Program.calls := [];
        Program.current_user := Some "admin";
        Program.current_role := Some "read-write" |}).
Proof.
  apply (rejected_rules_contact_no_device (H := ipv4_text)
           (H0 := Samples.quiet) [Samples.router; Samples.router]
           [Samples.permit_a; Samples.deny_in_a] false
           {| Program.log := []; Program.calls := [];
              Program.current_user := Some "admin";
              Program.current_role := Some "read-write" |}).
  - vm_compute. reflexivity.
  - repeat constructor; by eexists.
Defined.

Section MainFacts.

Context `{IPLibrary} `{Environment}.

Lemma appends_configure_acls_dry role d rules :
  appends (fun c => exists line, c = Print line)
          (configure_acls role d rules true).
Proof.
  unfold configure_acls. apply appends_bind; [apply appends_on_log |].
  intros ok. destruct (negb ok); [apply appends_on_log |].
  apply appends_bind; [apply appends_build_commands |].
  intros cmds. apply appends_dry_run_commands.
Qed.


Lemma multiple_devices_dry_prints devices rules : forall p,
  exists lines,
    Program.calls
      (snd (Program.configure_acls_on_multiple_devices devices rules true p))
    = Program.calls p ++ map Print lines.
Proof.
  induction devices as [| d devices IH]; intros p.
  { exists []. cbn. by rewrite app_nil_r. }
  rewrite multiple_devices_cons. unfold mbind, Program.P_bind.
  rewrite multiple_devices_one.
  destruct (d !! "host") as [h |].
  2:{ exists []. cbn. by rewrite app_nil_r. }
  destruct (appends_configure_acls_dry (Program.current_role p) d rules
              {| w_log := []; w_io := Program.calls p |})
    as (calls & Hcalls & Hprints).
  destruct (prints_map calls Hprints) as [lines1 ->].
  cbn [w_io] in Hcalls.
  destruct (configure_acls (Program.current_role p) d rules true
              {| w_log := []; w_io := Program.calls p |}) as [[[] | e] w];
    cbn [fst snd Program.lift Program.calls] in *.
  - match goal with
    | |- context [Program.configure_acls_on_multiple_devices _ _ _ ?q] =>
        destruct (IH q) as [lines2 ->]
    end.
    cbn [Program.calls]. exists (lines1 ++ lines2).
    by rewrite Hcalls, map_app, app_assoc.
  - by exists lines1.
Qed.

(** Under a role and rules that validation does not accept, the loop makes
    no call. *)
Lemma multiple_devices_stopped devices rules dry_run : forall p,
  out (validate_acl_rules (Program.current_role p) rules) <> Ret true ->
  Program.calls
    (snd (Program.configure_acls_on_multiple_devices devices rules dry_run
            p))
  = Program.calls p.
Proof.
  induction devices as [| d devices IH]; intros p Hv; [done |].
  rewrite multiple_devices_cons. unfold mbind, Program.P_bind.
  rewrite multiple_devices_one.
  destruct (d !! "host") as [h |]; [| done].
  destruct (configure_acls_stops (Program.current_role p) d rules dry_run
              {| w_log := []; w_io := Program.calls p |} Hv)
    as (r & notes & -> & _).
  cbn [fst snd w_io]. destruct r as [[] | e]; cbn [Program.lift]; [| done].
  by rewrite IH.
Qed.

Lemma read_only_deny_rejected rules r :
  r ∈ rules -> missing_required r = false ->
  r !! "action" = Some (VStr "deny") ->
  out (validate_acl_rules (Some "read-only") rules) <> Ret true.
Proof.
  intros Hr Hm Ha. apply validate_false. intros Hnil.
  assert (Hd : denials (scan_log (Some "read-only") scan0 rules) = 0%nat)
    by by rewrite Hnil.
  rewrite denials_scan_log in Hd.
  apply list_elem_of_In in Hr.
  assert (Hin : In r (List.filter
                        (fun r => negb (missing_required r)
                                  && denied (Some "read-only") r) rules)).
  { apply filter_In. split; [done |]. unfold denied, is_read_only, is_deny.
    rewrite Hm. by rewrite !bool_decide_true. }
  unfold count in Hd. apply length_zero_iff_nil in Hd.
  by rewrite Hd in Hin.
Qed.

End MainFacts.

Section MainRun.

Context `{IPLibrary} `{Environment} `{Program.Console}.

(** The ways through the script. *)
Lemma main_run (p : Program.process) :
  Program.main p
  = match Program.USER_ROLES !! Program.input "Enter username: " with
    | None =>
        (Program.Exits,
         {| Program.log := Program.log p ++ [Program.AuthenticationFailed];
            Program.calls := Program.calls p;
            Program.current_user := Program.current_user p;
            Program.current_role := Program.current_role p |})
    | Some role =>
        let p1 :=
          {| Program.log :=
               Program.log p
                 ++ [Program.Authenticated
                       (Program.input "Enter username: ")];
             Program.calls := Program.calls p;
             Program.current_user :=
               Some (Program.input "Enter username: ");
             Program.current_role := Some role |} in
        let stop l :=
          (Program.Exits,
           {| Program.log := Program.log p1 ++ [l];
              Program.calls := Program.calls p;
              Program.current_user := Program.current_user p1;
              Program.current_role := Some role |}) in
        match Program.json_load "devices.json" with
        | Program.Missing => stop (Program.FileNotFound "devices.json")
        | Program.Malformed => stop (Program.DecodeError "devices.json")
        | Program.Holds devices =>
            match Program.json_load "acl_rules.json" with
            | Program.Missing => stop (Program.FileNotFound "acl_rules.json")
            | Program.Malformed =>
                stop (Program.DecodeError "acl_rules.json")
            | Program.Holds rules =>
                Program.configure_acls_on_multiple_devices devices rules
                  true p1
            end
        end
    end.
Proof.
  unfold Program.main, Program.authenticate_user, Program.load_json_data.
  unfold mbind, Program.P_bind.
  destruct (Program.USER_ROLES !! Program.input "Enter username: ")
    as [role |]; [| reflexivity].
  cbn [Program.logging].
  destruct (Program.json_load "devices.json") as [| | devices];
    [reflexivity | reflexivity |].
  destruct (Program.json_load "acl_rules.json") as [| | rules];
    reflexivity.
Qed.

End MainRun.

(** X25: the script changes no device.  It calls
    [configure_acls_on_multiple_devices] with [dry_run=True]: whoever logs
    in, whatever the two files hold and however the run ends, the only
    calls it makes are prints. *)
Theorem main_only_prints `{IPLibrary} `{Environment} `{Program.Console}
    (p : Program.process) :
  exists lines,
    Program.calls (snd (Program.main p)) = Program.calls p ++ map Print lines.
Proof.
  assert (Hnil : forall q : Program.process,
            Program.calls q = Program.calls p ->
            exists lines, Program.calls q = Program.calls p ++ map Print lines).
  { intros q ->. exists []. cbn. by rewrite app_nil_r. }
  rewrite main_run.
  destruct (Program.USER_ROLES !! Program.input "Enter username: ")
    as [role |]; [| by apply Hnil].
  cbv zeta.
  destruct (Program.json_load "devices.json") as [| | devices];
    [by apply Hnil | by apply Hnil |].
  destruct (Program.json_load "acl_rules.json") as [| | rules];
    [by apply Hnil | by apply Hnil |].
  match goal with
  | |- context [Program.configure_acls_on_multiple_devices _ _ _ ?q] =>
      destruct (multiple_devices_dry_prints devices rules q) as [lines ->]
  end.
  by exists lines.
Qed.


(** A console at which [user] logs in, with one device and two rules on
    file. *)
Definition user_console : Program.Console :=
  {| Program.input := fun _ => "user";
     Program.getpass := fun _ => "";
     Program.json_load := fun file_path =>
       if decide (file_path = "devices.json")
       then Program.Holds [Samples.router]
       else Program.Holds [Samples.permit_a; Samples.deny_c] |}.

(** X29: a [deny] rule on file keeps the user [user] from any output.  The
    name [user] is given the role [read-only]; when [acl_rules.json] holds a
    rule with the required fields and the action [deny], validation never
    accepts the rules, and the script prints no command, whatever the
    devices are. *)
Theorem read_only_user_prints_nothing `{IPLibrary} `{Environment}
    `{Program.Console} (rules : list rule) (r : rule) (p : Program.process) :
  Program.input "Enter username: " = "user" ->
  Program.json_load "acl_rules.json" = Program.Holds rules ->
  r ∈ rules ->
  missing_required r = false ->
  r !! "action" = Some (VStr "deny") ->
  Program.calls (snd (Program.main p)) = Program.calls p.
Proof.
  intros Hname Hrules Hr Hm Ha. rewrite main_run, Hname, Hrules.
  change (Program.USER_ROLES !! "user") with (Some "read-only").
  cbv zeta.
  destruct (Program.json_load "devices.json") as [| | devices];
    [done | done |].
  rewrite multiple_devices_stopped; [done |].
  cbn [Program.current_role]. by apply (read_only_deny_rejected rules r).
Qed.

Lemma read_only_user_prints_nothing_witness :
  Program.calls
    (snd (Program.main (H := ipv4_text) (H0 := Samples.quiet)
            (H1 := user_console)
            {| Program.log := []; Program.calls := [];
               Program.current_user := None;
               Program.current_role := None |}))
  = [].
Proof.
  apply (read_only_user_prints_nothing (H := ipv4_text)
           (H0 := Samples.quiet) (H1 := user_console)
           [Samples.permit_a; Samples.deny_c] Samples.deny_c
           {| Program.log := []; Program.calls := [];
              Program.current_user := None; Program.current_role := None |});
    [reflexivity | reflexivity
    | apply list_elem_of_further, list_elem_of_here
    | vm_compute; reflexivity | vm_compute; reflexivity].
Defined.

(** X30: one device that fails does not keep the others from being
    configured.  In a live run on accepted rules and devices that all have
    a [host] key, the loop returns normally whatever the devices answer,
    and a connection is attempted to every device of the list. *)
Theorem every_device_is_tried `{IPLibrary} `{Environment}
    (devices : list device) (rules : list rule) (p : Program.process) :
  out (validate_acl_rules (Program.current_role p) rules) = Ret true ->
  Forall (fun d => is_Some (d !! "host")) devices ->
  exists calls,
    fst (Program.configure_acls_on_multiple_devices devices rules false p)
    = Program.Returns tt
    /\ Program.calls
         (snd (Program.configure_acls_on_multiple_devices devices rules
                 false p))
       = Program.calls p ++ calls
    /\ forall d, d ∈ devices -> ConnectHandler d ∈ calls.
Proof.
  revert p. induction devices as [| d devices IH]; intros p Hv Hhosts.
  { exists []. cbn. rewrite app_nil_r.
    split; [done |]. split; [done |]. by intros d Hd%elem_of_nil. }
  apply Forall_cons in Hhosts as [[h Hh] Hhosts].
  destruct (backup_current_config_run d h
              {| w_log := snd (validate_acl_rules (Program.current_role p)
                                 rules []);
                 w_io := Program.calls p |} Hh)
    as (bc & bn & Hb & Hbc & _).
  cbn [w_io w_log] in Hb.
  destruct (push_run d h rules
              {| w_log := snd (validate_acl_rules (Program.current_role p)
                                 rules []) ++ bn;
                 w_io := Program.calls p ++ bc |} Hh)
    as (pc & pn & Hp & _ & _).
  cbn [w_io w_log] in Hp.
  assert (Hone : exists lines,
            Program.configure_acls_on_multiple_devices [d] rules false p
            = (Program.Returns tt,
               {| Program.log := lines;
                  Program.calls := (Program.calls p ++ bc) ++ pc;
                  Program.current_user := Program.current_user p;
                  Program.current_role := Program.current_role p |})).
  { eexists. rewrite multiple_devices_one, Hh.
    rewrite configure_acls_live by done. cbn [w_io w_log].
    unfold mbind, ST_bind. rewrite Hb, Hp. reflexivity. }
  destruct Hone as [lines Hone].
  destruct (IH {| Program.log := lines;
                  Program.calls := (Program.calls p ++ bc) ++ pc;
                  Program.current_user := Program.current_user p;
                  Program.current_role := Program.current_role p |})
    as (calls & Hret & Hcalls & Hall); [done | done |].
  exists (bc ++ pc ++ calls).
  rewrite multiple_devices_cons. unfold mbind, Program.P_bind.
  rewrite Hone. split; [done |].
  split; [by rewrite Hcalls; cbn [Program.calls]; rewrite <- !app_assoc |].
  intros d' [-> | Hd']%elem_of_cons.
  - apply elem_of_app. left.
    destruct Hbc as [-> | [-> | [-> | (content & _ & [-> | ->])]]];
      apply list_elem_of_here.
  - apply elem_of_app. right. apply elem_of_app. right. by apply Hall.
Qed.

Lemma every_device_is_tried_witness :
  exists calls,
    fst (Program.configure_acls_on_multiple_devices (H := ipv4_text)
           (H0 := first_call_fails) [Samples.router; Samples.router]
           [Samples.permit_a; Samples.deny_c] false
           {| Program.log := []; Program.calls := [];
              Program.current_user := Some "admin";
              Program.current_role := Some "read-write" |})
    = Program.Returns tt
    /\ Program.calls
         (snd (Program.configure_acls_on_multiple_devices (H := ipv4_text)
                 (H0 := first_call_fails) [Samples.router; Samples.router]
                 [Samples.permit_a; Samples.deny_c] false
                 {| Program.log := []; Program.calls := [];
                    Program.current_user := Some "admin";
                    Program.current_role := Some "read-write" |}))
       = [] ++ calls
    /\ forall d, d ∈ [Samples.router; Samples.router] ->
                 ConnectHandler d ∈ calls.
Proof.
  apply (every_device_is_tried (H := ipv4_text) (H0 := first_call_fails)
           [Samples.router; Samples.router]
           [Samples.permit_a; Samples.deny_c]
           {| Program.log := []; Program.calls := [];
              Program.current_user := Some "admin";
              Program.current_role := Some "read-write" |}).
  - vm_compute. reflexivity.
  - repeat constructor; by eexists.
Defined.
